(** * Deutschlandkarte Gemeinden/Ortsteile: a shallow embedding of the scripts
      and of the two presentation applications, with their properties.

    Sources embedded here:
    - the splitter script ([Splitter], from [src/unnamed/part_000]);
    - the producer script ([Producer], first part of
      [scripts/fetch_vg250_ew.js]);
    - the Leaflet application ([Leaflet], from [src/unnamed/part_001]);
    - the MapLibre application ([MapLibre], second part of
      [scripts/fetch_vg250_ew.js]).

    JavaScript strings are sequences of UTF-16 code units ([list N]); JavaScript
    numbers are IEEE 754 doubles ([float]) except for populations, which the
    data model fixes to integers ([Z]; doubles represent them exactly below
    2^53, and so is the subtraction the comparators perform). *)

From Stdlib Require Import ZArith Ascii String PrimFloat Uint63 Floats.
From stdpp Require Import base decidable option list sorting gmap.

Set Default Proof Using "Type".
Local Open Scope N_scope.

(** ** JavaScript values and built-ins *)

Module JS.

(** A string: its UTF-16 code units. *)
Definition jsstring : Type := list N.

(** An ASCII literal as a [jsstring]. *)
Definition lit (s : string) : jsstring :=
  (λ a, N_of_ascii a) <$> list_ascii_of_string s.

(** A parsed JSON document (what [JSON.parse] and [Response.json] return);
    geometries are carried around as such documents and never inspected. *)
Unset Elimination Schemes.
Inductive json : Type :=
| JNull
| JBool (b : bool)
| JNum (x : float)
| JStr (s : jsstring)
| JArr (items : list json)
| JObj (fields : list (jsstring * json)).
Set Elimination Schemes.

(** [JSON.stringify] on a number, as the text reads: a number that is not
    finite is written as [null] ([None]), a negative zero as [0], and every
    other number so that it reads back as it was. *)
Definition written_number (x : float) : option float :=
  if PrimFloat.is_finite x
  then Some (if PrimFloat.eqb x 0 then 0%float else x)
  else None.

(** [JSON.stringify] on a parsed document, as the text reads. *)
Fixpoint written_json (j : json) : json :=
  match j with
  | JNum x =>
      match written_number x with
      | Some y => JNum y
      | None => JNull
      end
  | JArr items => JArr (written_json <$> items)
  | JObj fields => JObj ((λ kv, (kv.1, written_json kv.2)) <$> fields)
  | _ => j
  end.

(** [s.slice(0, n)] for [0 <= n]. *)
Definition slice0 (n : nat) (s : jsstring) : jsstring := take n s.

(** [s.padStart(n, '0')]: zeros (code unit 48) in front, up to length [n]. *)
Definition padStart0 (n : nat) (s : jsstring) : jsstring :=
  replicate (n - length s) 48 ++ s.

(** [a || b] on optional strings: [undefined], [null] and [''] are falsy. *)
Definition truthy (a : option jsstring) : bool :=
  match a with
  | Some (_ :: _) => true
  | _ => false
  end.

Definition or_else (a b : option jsstring) : option jsstring :=
  if truthy a then a else b.

(** [s.startsWith(p)] and [s.includes(p)]. *)
Fixpoint is_prefix (p s : jsstring) : bool :=
  match p, s with
  | [], _ => true
  | _ :: _, [] => false
  | x :: p', y :: s' => N.eqb x y && is_prefix p' s'
  end.

Fixpoint includes (s p : jsstring) : bool :=
  is_prefix p s ||
  match s with
  | [] => false
  | _ :: s' => includes s' p
  end.

(** [Number.isFinite(x)] for a value that is a number. *)
Definition isFinite (x : float) : bool := PrimFloat.is_finite x.

(** [x > 0] on numbers. *)
Definition positive (x : float) : bool := PrimFloat.ltb 0 x.

(** The order of the default [Array.prototype.sort] on strings: code unit
    by code unit, a proper prefix first. [str_ltb a b] is [a < b]. *)
Fixpoint str_ltb (a b : jsstring) : bool :=
  match a, b with
  | _, [] => false
  | [], _ :: _ => true
  | x :: a', y :: b' =>
      if N.ltb x y then true
      else if N.ltb y x then false
      else str_ltb a' b'
  end.

(** [Array.prototype.sort]: stable (ECMAScript 2019); [lt a b] says that the
    comparator puts [a] strictly before [b] ([comparefn(a, b) < 0]). Every
    stable sort returns the same array for a consistent comparator, so the
    insertion sort below stands for whichever algorithm the engine runs. *)
Section Sort.
Context {A : Type} (lt : A → A → bool).

Fixpoint insert_sorted (x : A) (l : list A) : list A :=
  match l with
  | [] => [x]
  | y :: l' => if lt y x then y :: insert_sorted x l' else x :: y :: l'
  end.

Definition sort (l : list A) : list A := foldr insert_sorted [] l.

(** [a] may stand before [b]: the comparator does not put [b] strictly
    before [a]. *)
Definition not_after (a b : A) : Prop := lt b a = false.
End Sort.

End JS.

Import JS.

(** ** The splitter script (src/unnamed/part_000) *)

Module Splitter.

(** [f.properties]: the two identifier fields the script reads, and the
    rest of the object, which it passes through. *)
Record Properties : Type := {
  ags : option jsstring;
  id : option jsstring;
  other : json;
}.

Record Feature : Type := {
  properties : option Properties;
  geometry : json;
}.

Record FeatureCollection : Type := { features : list Feature }.

(** [(f.properties?.ags || f.properties?.id || '').toString()] *)
Definition ags_of (f : Feature) : jsstring :=
  default [] (or_else (properties f ≫= ags)
               (or_else (properties f ≫= id) (Some []))).

(** [ags.slice(0,2)] *)
Definition state_of (f : Feature) : jsstring := slice0 2 (ags_of f).

(** The [Map] [by]: its entries in insertion order. *)
Definition ByState : Type := list (jsstring * list Feature).

Definition has (by_ : ByState) (k : jsstring) : bool :=
  bool_decide (k ∈ by_.*1).

(** [by.get(k).push(f)]: the array stored under [k] grows in place. *)
Fixpoint push_to (k : jsstring) (f : Feature) (by_ : ByState) : ByState :=
  match by_ with
  | [] => []
  | (k', fs) :: rest =>
      if decide (k' = k) then (k', fs ++ [f]) :: rest
      else (k', fs) :: push_to k f rest
  end.

(** One turn of [for (const f of fc.features)]. *)
Definition step (by_ : ByState) (f : Feature) : ByState :=
  let state := state_of f in
  let by1 := if has by_ state then by_ else by_ ++ [(state, [])] in
  push_to state f by1.

Definition group (fs : list Feature) : ByState := foldl step [] fs.

(** [by.get(k)] for a key of the map. *)
Fixpoint get (by_ : ByState) (k : jsstring) : list Feature :=
  match by_ with
  | [] => []
  | (k', fs) :: rest => if decide (k' = k) then fs else get rest k
  end.

(** [Array.from(by.keys()).sort()] *)
Definition codes_of (by_ : ByState) : list jsstring := sort str_ltb (by_.*1).

(** A feature as the text [JSON.stringify] writes for it reads. *)
Definition written_feature (f : Feature) : Feature :=
  {| properties :=
       (λ p, {| ags := ags p; id := id p; other := written_json (other p) |})
         <$> properties f;
     geometry := written_json (geometry f) |}.

(** [JSON.stringify(out)], by the collection the text holds. *)
Definition stringify (out : FeatureCollection) : FeatureCollection :=
  {| features := written_feature <$> features out |}.

(** The name written for a code: [`de-${code}.geojson`]. *)
Definition file_name (code : jsstring) : jsstring :=
  lit "de-" ++ code ++ lit ".geojson".

(** [fs.writeFileSync(path.join(DEST_DIR, name), data)] on a POSIX file
    system, [DEST_DIR] being the directory [ensureDir] has made, with no
    directory inside. The call throws when [name] holds a NUL (no path may)
    or a slash (the path then leads into a directory [de-...] that does not
    exist). *)
Definition writable (name : jsstring) : bool :=
  forallb (λ c, negb (c =? 0) && negb (c =? 47)) name.

(** The name the file gets on disk. A path is handed over in UTF-8, where a
    surrogate code unit that is not half of a pair becomes U+FFFD; the
    result is given in code units again. *)
Definition is_lead (c : N) : bool := (55296 <=? c) && (c <=? 56319).
Definition is_trail (c : N) : bool := (56320 <=? c) && (c <=? 57343).

Fixpoint on_disk (s : jsstring) : jsstring :=
  match s with
  | [] => []
  | c :: s' =>
      if is_lead c then
        match s' with
        | d :: s'' =>
            if is_trail d then c :: d :: on_disk s''
            else 65533 :: on_disk s'
        | [] => [65533]
        end
      else if is_trail c then 65533 :: on_disk s'
      else c :: on_disk s'
  end.

(** The directory after a write: a file of that name is replaced. *)
Definition write_file (files : list (jsstring * FeatureCollection))
    (name : jsstring) (data : FeatureCollection)
    : list (jsstring * FeatureCollection) :=
  filter (λ w, w.1 ≠ name) files ++ [(name, data)].

(** What a run leaves behind: the files it wrote, by the name on disk and
    in the order of their last write, each with the collection that its
    text, [JSON.stringify(out)], holds; the lines [console.error] wrote
    (code and number of features); and whether the run ended by an
    exception, which nothing in the script catches. *)
Record Run : Type := {
  written : list (jsstring * FeatureCollection);
  stderr : list (jsstring * nat);
  thrown : bool;
}.

(** One turn of [for (const code of codes)]. *)
Definition write_step (by_ : ByState) (r : Run) (code : jsstring) : Run :=
  if thrown r then r
  else
    let out := {| features := get by_ code |} in
    if writable (file_name code)
    then {| written := write_file (written r) (on_disk (file_name code))
                         (stringify out);
            stderr := stderr r ++ [(code, length (features out))];
            thrown := false |}
    else {| written := written r; stderr := stderr r; thrown := true |}.

Definition main (fc : FeatureCollection) : Run :=
  let by_ := group (features fc) in
  foldl (write_step by_)
    {| written := []; stderr := []; thrown := false |} (codes_of by_).

(** Reading the written files back in the order of their codes and
    concatenating their features. *)
Definition reassemble (r : Run) : list Feature :=
  mjoin ((λ w, features w.2) <$> written r).

End Splitter.

(** ** The producer script (scripts/fetch_vg250_ew.js, lines 1-97) *)

Module Producer.

(** The properties of a feature as the WFS delivers them. Identifiers and
    names are strings when present; [ewz] (population) and [kfl] (area) are
    read with [typeof] tests, so they stay JSON values ([None]: absent). *)
Record RawProps : Type := {
  r_ags : option jsstring;
  r_ars : option jsstring;
  r_sdv_ars : option jsstring;
  r_gen : option jsstring;
  r_bez : option jsstring;
  r_ewz : option json;
  r_kfl : option json;
}.

Record RawFeature : Type := {
  r_properties : option RawProps;
  r_geometry : json;
}.

(** [f.properties || {}] *)
Definition no_props : RawProps :=
  {| r_ags := None; r_ars := None; r_sdv_ars := None; r_gen := None;
     r_bez := None; r_ewz := None; r_kfl := None |}.

Definition props_of (f : RawFeature) : RawProps := default no_props (r_properties f).

(** [String(a || '')] and [String(a || b || '')] *)
Definition str_or_empty (a : option jsstring) : jsstring :=
  default [] (or_else a (Some [])).

(** A template literal with one hole: [`${v}`]. *)
Definition template (v : option jsstring) : jsstring :=
  default (lit "undefined") v.

(** An entry of [krsBy5]: [{ name: p.gen, bez: p.bez }]. *)
Record Kreis : Type := {
  k_name : option jsstring;
  k_bez : option jsstring;
}.

(** The key under which a county is stored: [String(p.ars || '').padStart(5,'0')]. *)
Definition krs_key (f : RawFeature) : jsstring :=
  padStart0 5 (str_or_empty (r_ars (props_of f))).

(** [for (const f of krsFeatures) { ...; krsBy5.set(ars, {...}) }] *)
Definition krs_step (m : gmap jsstring Kreis) (f : RawFeature) : gmap jsstring Kreis :=
  let p := props_of f in
  <[krs_key f := {| k_name := r_gen p; k_bez := r_bez p |}]> m.

Definition build_krsBy5 (krsFeatures : list RawFeature) : gmap jsstring Kreis :=
  foldl krs_step ∅ krsFeatures.

(** ASCII lower case, the only case folding [/kreisfrei/i] performs on the
    letters of its pattern (without the [u] flag a code unit of 128 or more
    never matches an ASCII one). *)
Definition ascii_lower (c : N) : N :=
  if (65 <=? c) && (c <=? 90) then c + 32 else c.

(** [/kreisfrei/i.test(s)] *)
Definition test_kreisfrei (s : jsstring) : bool :=
  includes (ascii_lower <$> s) (lit "kreisfrei").

(** [kreis.bez === 'Kreisfreie Stadt' || /kreisfrei/i.test(kreis.bez || '')] *)
Definition is_kreisfrei (k : Kreis) : bool :=
  bool_decide (k_bez k = Some (lit "Kreisfreie Stadt"))
  || test_kreisfrei (str_or_empty (k_bez k)).

(** The properties of an emitted feature. [None] is [undefined] for
    [name] and [county], and [null] for the three numbers. *)
Record OutProps : Type := {
  id : jsstring;
  name : option jsstring;
  county : option jsstring;
  ags : jsstring;
  pop : option float;
  area_km2 : option float;
  density : option float;
}.

Record OutFeature : Type := {
  properties : OutProps;
  geometry : json;
}.

Section WithNumber.
(** [Number(s)] on a string: the numeric value of the literal, [NaN] when
    it is none. The script's behaviour is stated for whatever it returns. *)
Variable Number : jsstring → float.

(** [s.replace(/,/g,'')]: the commas (code unit 44) dropped. *)
Definition strip_commas (s : jsstring) : jsstring :=
  filter (λ c, c ≠ 44) s.

(** [Number.isFinite(v) ? v : (typeof v === 'string' ? Number(v.replace(/,/g,'')) : null)];
    [None] is [null]. *)
Definition parse_field (v : option json) : option float :=
  match v with
  | Some (JNum x) => if isFinite x then Some x else None
  | Some (JStr s) => Some (Number (strip_commas s))
  | _ => None
  end.

(** [Number.isFinite(v)] for [v] a number or [null]. *)
Definition finite (v : option float) : bool :=
  match v with
  | Some x => isFinite x
  | None => false
  end.

(** [Number.isFinite(v) ? v : null] *)
Definition finite_or_null (v : option float) : option float :=
  if finite v then v else None.

(** [Number.isFinite(pop) && Number.isFinite(area) && area>0 ? pop/area : null] *)
Definition density_of (pop area : option float) : option float :=
  match pop, area with
  | Some p, Some a =>
      if isFinite p && isFinite a && positive a then Some (p / a)%float else None
  | _, _ => None
  end.

(** The first five code units of the padded regional key. *)
Definition ars5_of (f : RawFeature) : jsstring :=
  let p := props_of f in
  let ars12 := padStart0 12 (str_or_empty (or_else (r_ars p) (r_sdv_ars p))) in
  slice0 5 ars12.

(** [kreis ? (... ? `${p.gen}` : `${kreis.name || ''}`) : undefined] *)
Definition county_of (p : RawProps) (kreis : option Kreis) : option jsstring :=
  match kreis with
  | Some k =>
      Some (if is_kreisfrei k then template (r_gen p)
            else str_or_empty (k_name k))
  | None => None
  end.

(** The body of [for (const f of gemFeatures)]: the feature pushed. *)
Definition emit (krsBy5 : gmap jsstring Kreis) (f : RawFeature) : OutFeature :=
  let p := props_of f in
  let ags := padStart0 8 (str_or_empty (r_ags p)) in
  let kreis := krsBy5 !! ars5_of f in
  let pop := parse_field (r_ewz p) in
  let area := parse_field (r_kfl p) in
  {| properties :=
       {| id := ags;
          name := r_gen p;
          county := county_of p kreis;
          ags := ags;
          pop := finite_or_null pop;
          area_km2 := finite_or_null area;
          density := density_of pop area |};
     geometry := r_geometry f |}.

(** The loop itself: [out.features.push(...)] once per municipality. *)
Definition gem_step (krsBy5 : gmap jsstring Kreis)
    (out : list OutFeature) (f : RawFeature) : list OutFeature :=
  out ++ [emit krsBy5 f].

Definition build (gemFeatures krsFeatures : list RawFeature) : list OutFeature :=
  foldl (gem_step (build_krsBy5 krsFeatures)) [] gemFeatures.
End WithNumber.

End Producer.

(** ** What both applications share: the feature type and the fetch model *)

Module App.

Inductive Kind : Type := gemeinde | ortsteil.

Global Instance Kind_eq_dec : EqDecision Kind.
Proof. solve_decision. Defined.

(** [FProps] / [FeatureProps]. [None] stands for both [undefined] and
    [null], which every test in the applications treats alike. [pop] holds
    the value of the number, an integer in the data. *)
Record FProps : Type := {
  id : jsstring;
  name : jsstring;
  parent : option jsstring;
  county : option jsstring;
  ags : option jsstring;
  pop : option Z;
  area_km2 : option float;
  density : option float;
  kind : Kind;
  rank : option nat;
}.

Global Instance FProps_inhabited : Inhabited FProps :=
  populate {| id := []; name := []; parent := None; county := None;
              ags := None; pop := None; area_km2 := None; density := None;
              kind := gemeinde; rank := None |}.

(** [{ ...p, density: d }], [{ ...p, rank: r }] and [{ ...p, pop: n }] *)
Definition with_density (p : FProps) (d : option float) : FProps :=
  {| id := id p; name := name p; parent := parent p; county := county p;
     ags := ags p; pop := pop p; area_km2 := area_km2 p; density := d;
     kind := kind p; rank := rank p |}.

Definition with_rank (p : FProps) (r : option nat) : FProps :=
  {| id := id p; name := name p; parent := parent p; county := county p;
     ags := ags p; pop := pop p; area_km2 := area_km2 p; density := density p;
     kind := kind p; rank := r |}.

Definition with_pop (p : FProps) (n : option Z) : FProps :=
  {| id := id p; name := name p; parent := parent p; county := county p;
     ags := ags p; pop := n; area_km2 := area_km2 p; density := density p;
     kind := kind p; rank := rank p |}.

(** A feature as a value: what a response body holds, and what the copies
    made by [combined] are. *)
Record Feature : Type := {
  properties : FProps;
  geometry : json;
}.

(** The double of an integer value: the integer itself where a double
    holds it (every integer below 2^53 in magnitude, and every integer that
    a double can be), rounded to nearest-even elsewhere. [pop] is kept as
    the integer value of the JS number, so this is the number the code
    divides. *)
Definition float_of_Z (z : Z) : float :=
  SF2Prim (binary_normalize prec emax z 0 false).

(** [a.properties.pop ?? -1] *)
Definition pop_or_m1 (p : FProps) : Z := default (-1)%Z (pop p).

(** What [fetch(url)] comes to: it rejects on a network error and resolves
    with a response otherwise, whose [json()] resolves with the parsed body
    or rejects ([None]). *)
Inductive Fetched (A : Type) : Type :=
| NetworkError
| Response (ok : bool) (body : option A).
Arguments NetworkError {A}.
Arguments Response {A} ok body.

(** A settled promise. *)
Inductive Promise (A : Type) : Type :=
| Resolved (a : A)
| Rejected.
Arguments Resolved {A} a.
Arguments Rejected {A}.

Definition fetch {A} (r : Fetched A) : Promise (bool * option A) :=
  match r with
  | NetworkError => Rejected
  | Response ok body => Resolved (ok, body)
  end.

(** [r.json()] *)
Definition json_of {A} (r : bool * option A) : Promise A :=
  match r.2 with
  | Some v => Resolved v
  | None => Rejected
  end.

(** [p.then(f)] and [p.catch(() => v)] *)
Definition then_ {A B} (p : Promise A) (f : A → Promise B) : Promise B :=
  match p with
  | Resolved a => f a
  | Rejected => Rejected
  end.

Definition catch_ {A} (p : Promise A) (v : A) : Promise A :=
  match p with
  | Resolved a => Resolved a
  | Rejected => Resolved v
  end.

(** [Promise.all(ps)]: the values in the order of [ps], whatever the order
    of completion. *)
Fixpoint all_ {A} (ps : list (Promise A)) : Promise (list A) :=
  match ps with
  | [] => Resolved []
  | p :: ps' =>
      then_ p (λ a, then_ (all_ ps') (λ l, Resolved (a :: l)))
  end.

(** What one promise chain of the load effect leaves: the value handed to
    the state setter, if the setter ran, and whether the chain ended in a
    rejection that no handler took. *)
Record Outcome (A : Type) : Type := {
  set_to : option A;
  unhandled : bool;
}.
Arguments set_to {A} o.
Arguments unhandled {A} o.

(** A chain ending in [.then(setter)] with nothing after it. *)
Definition settle {A} (p : Promise A) : Outcome A :=
  match p with
  | Resolved a => {| set_to := Some a; unhandled := false |}
  | Rejected => {| set_to := None; unhandled := true |}
  end.

(** A chain ending in [.then(setter).catch(()=>{})]. *)
Definition settle_caught {A} (p : Promise A) : Outcome A :=
  match p with
  | Resolved a => {| set_to := Some a; unhandled := false |}
  | Rejected => {| set_to := None; unhandled := false |}
  end.

End App.

Import App.

(** ** The string built-ins of the search filter

    [toLowerCase] and [normalize('NFD')] are given for Basic Latin and the
    Latin-1 Supplement (code units below 256), where they are what
    ECMAScript and Unicode define; other code units pass unchanged.
    [\p{Diacritic}] is the Unicode property up to U+036F, which covers
    every mark a decomposition below produces. *)

Module Unicode.

(** The tables of this module cover Latin-1, the code units below 256, and
    the combining marks their decomposition gives. What is proved of the
    search through them is proved for strings of such code units. *)
Definition latin1 (s : jsstring) : bool := forallb (λ c, c <? 256) s.

(** [s.toLowerCase()] *)
Definition lower (c : N) : N :=
  if (65 <=? c) && (c <=? 90) then c + 32
  else if (192 <=? c) && (c <=? 222) && negb (c =? 215) then c + 32
  else c.

Definition toLowerCase (s : jsstring) : jsstring := lower <$> s.

(** The canonical decomposition of a Latin-1 letter: base letter (as an
    offset from [A] or [a]) and combining mark, by the letter's place in
    its row of 32. *)
Definition decomposition (place : N) : option (N * N) :=
  match place with
  | 0 => Some (0, 768) | 1 => Some (0, 769) | 2 => Some (0, 770)
  | 3 => Some (0, 771) | 4 => Some (0, 776) | 5 => Some (0, 778)
  | 7 => Some (2, 807)
  | 8 => Some (4, 768) | 9 => Some (4, 769) | 10 => Some (4, 770)
  | 11 => Some (4, 776)
  | 12 => Some (8, 768) | 13 => Some (8, 769) | 14 => Some (8, 770)
  | 15 => Some (8, 776)
  | 17 => Some (13, 771)
  | 18 => Some (14, 768) | 19 => Some (14, 769) | 20 => Some (14, 770)
  | 21 => Some (14, 771) | 22 => Some (14, 776)
  | 25 => Some (20, 768) | 26 => Some (20, 769) | 27 => Some (20, 770)
  | 28 => Some (20, 776)
  | 29 => Some (24, 769)
  | _ => None
  end.

Definition nfd_unit (c : N) : jsstring :=
  if (192 <=? c) && (c <=? 222) then
    match decomposition (c - 192) with
    | Some (base, mark) => [65 + base; mark]
    | None => [c]
    end
  else if (224 <=? c) && (c <=? 254) then
    match decomposition (c - 224) with
    | Some (base, mark) => [97 + base; mark]
    | None => [c]
    end
  else if c =? 255 then [121; 776]
  else [c].

(** [s.normalize('NFD')] *)
Definition normalizeNFD (s : jsstring) : jsstring := s ≫= nfd_unit.

(** [\p{Diacritic}] *)
Definition is_diacritic (c : N) : bool :=
  (c =? 94) || (c =? 96) || (c =? 168) || (c =? 175) || (c =? 180)
  || (c =? 183) || (c =? 184)
  || ((688 <=? c) && (c <=? 846))
  || ((848 <=? c) && (c <=? 855))
  || ((861 <=? c) && (c <=? 866)).

(** [s.replace(/\p{Diacritic}/gu,'')] *)
Definition strip_diacritics (s : jsstring) : jsstring :=
  filter (λ c, is_diacritic c = false) s.

(** [.replace(/ä/g,'ae').replace(/ö/g,'oe').replace(/ü/g,'ue').replace(/ß/g,'ss')] *)
Definition transliterate_unit (c : N) : jsstring :=
  match c with
  | 228 => [97; 101]
  | 246 => [111; 101]
  | 252 => [117; 101]
  | 223 => [115; 115]
  | _ => [c]
  end.

Definition transliterate (s : jsstring) : jsstring := s ≫= transliterate_unit.

(** White space and line terminators, what [trim] removes. *)
Definition is_space (c : N) : bool :=
  ((9 <=? c) && (c <=? 13)) || (c =? 32) || (c =? 160) || (c =? 5760)
  || ((8192 <=? c) && (c <=? 8202)) || (c =? 8232) || (c =? 8233)
  || (c =? 8239) || (c =? 8287) || (c =? 12288) || (c =? 65279).

(** [s.trim().length === 0] *)
Definition is_blank (s : jsstring) : bool := forallb is_space s.

End Unicode.

(** ** The Leaflet application (src/unnamed/part_001) *)

Module Leaflet.
Import Unicode.

(** [COLORS] *)
Definition COLORS : list jsstring :=
  [lit "#7f0000"; lit "#cc0000"; lit "#ff66a3"; lit "#cc5500"; lit "#ff9900";
   lit "#ffff00"; lit "#add8e6"; lit "#0000ff"; lit "#90ee90"; lit "#008000"].

Definition color (i : nat) : jsstring := default [] (COLORS !! i).

Definition gray : jsstring := lit "#cccccc".

Definition colorForPop (pop : option Z) : jsstring :=
  let p := default (-1)%Z pop in
  if (p <? 0)%Z then gray
  else if (p <=? 5000)%Z then color 0
  else if (p <=? 10000)%Z then color 1
  else if (p <=? 20000)%Z then color 2
  else if (p <=? 30000)%Z then color 3
  else if (p <=? 40000)%Z then color 4
  else if (p <=? 50000)%Z then color 5
  else if (p <=? 60000)%Z then color 6
  else if (p <=? 80000)%Z then color 7
  else if (p <=? 100000)%Z then color 8
  else color 9.

(** A fetched feature object. Its [properties] object lives in the heap,
    because [combined] assigns to it; nothing assigns to the feature
    object itself or to its geometry. *)
Abbreviation loc := nat.

Record GFeat : Type := {
  properties : loc;
  geometry : json;
}.

(** The property objects of all fetched features, by location. *)
Abbreviation Heap := (list FProps).

(** The component's state: what [useState] holds, and the heap the two
    collections point into. [None] is [null]. *)
Record State : Type := {
  heap : Heap;
  gemeinden : option (list GFeat);
  ortsteile : option (list GFeat);
  query : jsstring;
  showGemeinden : bool;
  showOrtsteile : bool;
}.

(** [arr], after the two [push(...)]. *)
Definition arr_of (s : State) : list GFeat :=
  default [] (gemeinden s) ++ default [] (ortsteile s).

(** One turn of [for (const f of arr)]: [p.density = p.pop / p.area_km2]
    when the density is missing and population and area allow it. *)
Definition recompute (h : Heap) (f : GFeat) : Heap :=
  let p := h !!! properties f in
  match density p, pop p, area_km2 p with
  | None, Some n, Some a =>
      if isFinite a && positive a
      then <[properties f := with_density p (Some (float_of_Z n / a)%float)]> h
      else h
  | _, _, _ => h
  end.

(** The comparator of both sorts: [(a,b) => pb - pa] is negative, and [a]
    goes first, when [a] has the larger population. *)
Definition before (pa pb : FProps) : bool :=
  (pop_or_m1 pb - pop_or_m1 pa <? 0)%Z.

(** [{...f, properties: {...f.properties, rank: r}}]: the copy [combined]
    makes of a feature, with the rank it gives it. *)
Definition ranked (h : Heap) (f : GFeat) (r : option nat) : Feature :=
  {| App.properties := with_rank (h !!! properties f) r;
     App.geometry := geometry f |}.

(** [sorted.map(f => ...)] with the counter [rank] threaded through:
    [Number.isFinite(f.properties.pop) ? rank++ : undefined]. *)
Fixpoint assign_ranks (h : Heap) (rank : nat) (l : list GFeat) : list Feature :=
  match l with
  | [] => []
  | f :: l' =>
      match pop (h !!! properties f) with
      | Some _ => ranked h f (Some rank) :: assign_ranks h (S rank) l'
      | None => ranked h f None :: assign_ranks h rank l'
      end
  end.

(** [combined]: the heap as the loop leaves it, and the ranked copies. *)
Definition combined (s : State) : Heap * list Feature :=
  let arr := arr_of s in
  let h := foldl recompute (heap s) arr in
  let sorted := sort (λ a b, before (h !!! properties a) (h !!! properties b)) arr in
  (h, assign_ranks h 1 sorted).

Definition of_kind (k : Kind) (l : list Feature) : list Feature :=
  filter (λ f, kind (App.properties f) = k) l.

(** [gemeindenOnly] and [ortsteileOnly] *)
Definition gemeindenOnly (s : State) (comb : list Feature) : option (list Feature) :=
  match gemeinden s with
  | None => None
  | Some _ => Some (of_kind gemeinde comb)
  end.

Definition ortsteileOnly (s : State) (comb : list Feature) : option (list Feature) :=
  match ortsteile s with
  | None => None
  | Some _ => Some (of_kind ortsteil comb)
  end.

(** [norm] and [m] of [listItems] *)
Definition norm (s : jsstring) : jsstring :=
  transliterate (strip_diacritics (normalizeNFD (toLowerCase s))).

Definition m (query s : jsstring) : bool := includes (norm s) (norm query).

(** [m(p.name) || (p.county && m(p.county)) || (p.ags && m(p.ags))] *)
Definition matches (query : jsstring) (p : FProps) : bool :=
  m query (name p)
  || (truthy (county p) && m query (default [] (county p)))
  || (truthy (ags p) && m query (default [] (ags p))).

Definition listItems (s : State) (comb : list Feature) : list Feature :=
  let base :=
    if showGemeinden s then default [] (gemeindenOnly s comb)
    else default [] (ortsteileOnly s comb) in
  let filtered :=
    if is_blank (query s) then base
    else filter (λ f, matches (query s) (App.properties f) = true) base in
  sort (λ a b, before (App.properties a) (App.properties b)) filtered.

(** What is on screen: the list, and the two map layers ([None]: the layer
    is not mounted). *)
Record View : Type := {
  list_items : list Feature;
  gemeinden_layer : option (list Feature);
  ortsteile_layer : option (list Feature);
}.

(** One render: the heap it leaves and what it shows. *)
Definition render (s : State) : Heap * View :=
  let '(h, comb) := combined s in
  (h,
   {| list_items := listItems s comb;
      gemeinden_layer := if showGemeinden s then gemeindenOnly s comb else None;
      ortsteile_layer := if showOrtsteile s then ortsteileOnly s comb else None |}).

(** The load effect. [codes] are the sixteen state codes; [world] says what
    each request comes to. *)
Definition codes : list jsstring :=
  lit <$> ["01"; "02"; "03"; "04"; "05"; "06"; "07"; "08"; "09"; "10";
           "11"; "12"; "13"; "14"; "15"; "16"]%string.

Inductive Request : Type :=
| Chunk (code : jsstring)
| Ortsteile.

(** A response body that is JSON, as the component reads it: [null]
    ([None]), or a feature collection, the type [FC] that the component
    declares for it, given by its features. *)
Abbreviation Body := (option (list Feature)).

(** [fetch(...).then(r=>r.ok?r.json():{...features:[]}).catch(()=>({...features:[]}))] *)
Definition load_chunk (r : Fetched Body) : Promise Body :=
  catch_ (then_ (fetch r) (λ r, if r.1 then json_of r else Resolved (Some [])))
    (Some []).

(** [parts.flatMap(p=>p.features)]: reading [features] of [null] throws. *)
Fixpoint flat_features (parts : list Body) : Promise (list Feature) :=
  match parts with
  | [] => Resolved []
  | None :: _ => Rejected
  | Some fs :: rest => then_ (flat_features rest) (λ l, Resolved (fs ++ l))
  end.

(** [Promise.all(codes.map(...)).then(parts => setGemeinden({... parts.flatMap(p=>p.features)}))];
    nothing catches what the last callback throws. *)
Definition load_gemeinden (world : Request → Fetched Body)
    : Outcome (list Feature) :=
  settle (then_ (all_ ((λ c, load_chunk (world (Chunk c))) <$> codes))
            flat_features).

(** [fetch("/data/ortsteile.geojson").then(r=>r.json()).then(setOrtsteile).catch(()=>{})]:
    the setter receives the body, [null] included. *)
Definition load_ortsteile (world : Request → Fetched Body) : Outcome Body :=
  settle_caught (then_ (fetch (world Ortsteile)) json_of).

(** A state setter receiving a fetched collection: its property objects
    are new objects of the heap. *)
Definition alloc (h : Heap) (fc : list Feature) : Heap * list GFeat :=
  (h ++ (App.properties <$> fc),
   imap (λ i f, {| properties := (length h + i)%nat; geometry := App.geometry f |}) fc).

Definition setGemeinden (s : State) (fc : list Feature) : State :=
  let '(h, g) := alloc (heap s) fc in
  {| heap := h; gemeinden := Some g; ortsteile := ortsteile s;
     query := query s; showGemeinden := showGemeinden s;
     showOrtsteile := showOrtsteile s |}.

Definition setOrtsteile (s : State) (fc : list Feature) : State :=
  let '(h, o) := alloc (heap s) fc in
  {| heap := h; gemeinden := gemeinden s; ortsteile := Some o;
     query := query s; showGemeinden := showGemeinden s;
     showOrtsteile := showOrtsteile s |}.

(** [setOrtsteile(null)] *)
Definition clearOrtsteile (s : State) : State :=
  {| heap := heap s; gemeinden := gemeinden s; ortsteile := None;
     query := query s; showGemeinden := showGemeinden s;
     showOrtsteile := showOrtsteile s |}.

(** The three inputs of the side bar. *)
Inductive Event : Type :=
| SetQuery (q : jsstring)
| SetShowGemeinden (b : bool)
| SetShowOrtsteile (b : bool).

(** An event handler: the next state, and the requests it sends (none:
    only the effect that runs once after mounting fetches). *)
Definition handle (s : State) (e : Event) : State * list Request :=
  match e with
  | SetQuery q =>
      ({| heap := heap s; gemeinden := gemeinden s; ortsteile := ortsteile s;
          query := q; showGemeinden := showGemeinden s;
          showOrtsteile := showOrtsteile s |}, [])
  | SetShowGemeinden b =>
      ({| heap := heap s; gemeinden := gemeinden s; ortsteile := ortsteile s;
          query := query s; showGemeinden := b;
          showOrtsteile := showOrtsteile s |}, [])
  | SetShowOrtsteile b =>
      ({| heap := heap s; gemeinden := gemeinden s; ortsteile := ortsteile s;
          query := query s; showGemeinden := showGemeinden s;
          showOrtsteile := b |}, [])
  end.

(** [useState] defaults. *)
Definition initial : State :=
  {| heap := []; gemeinden := None; ortsteile := None; query := [];
     showGemeinden := true; showOrtsteile := false |}.

End Leaflet.

(** ** The MapLibre application (scripts/fetch_vg250_ew.js, lines 98-369) *)

Module MapLibre.
Import Unicode.

(** A [step] expression of the MapLibre style language:
    [["step", ["get", property], out0, stop1, out1, ..., stopN, outN]]. *)
Record StepExpr : Type := {
  property : jsstring;
  first_output : jsstring;
  stops : list (Z * jsstring);
}.

(** [colorExpr()] *)
Definition colorExpr : StepExpr :=
  {| property := lit "pop";
     first_output := lit "#7f0000";
     stops := [(5000, lit "#cc0000"); (10000, lit "#ff66a3");
               (20000, lit "#cc5500"); (30000, lit "#ff9900");
               (40000, lit "#ffff00"); (50000, lit "#add8e6");
               (60000, lit "#0000ff"); (80000, lit "#90ee90");
               (100000, lit "#008000")]%Z |}.

(** How the map library evaluates [step] (MapLibre style specification):
    the output of the last stop that is less than or equal to the input,
    and the first output when the input is below the first stop. *)
Fixpoint step_output (current : jsstring) (stops : list (Z * jsstring)) (x : Z)
    : jsstring :=
  match stops with
  | [] => current
  | (stop, out) :: rest =>
      if (stop <=? x)%Z then step_output out rest x else current
  end.

(** The colour the expression gives a feature. An input that is not a
    number ([null]) makes the expression fail: it yields none of its
    outputs, and the renderer falls back to the paint property's default. *)
Definition eval_step (e : StepExpr) (v : option Z) : option jsstring :=
  match v with
  | Some x => Some (step_output (first_output e) (stops e) x)
  | None => None
  end.

Record State : Type := {
  gemeinden : option (list Feature);
  ortsteile : option (list Feature);
  query : jsstring;
  showGemeinden : bool;
  showOrtsteile : bool;
}.

(** [feats], after the two [push(...)]. *)
Definition feats_of (s : State) : list Feature :=
  default [] (gemeinden s) ++ default [] (ortsteile s).

(** [{ ...f, properties: { ...f.properties, pop: f.properties.pop ?? null } }] *)
Definition normalise (f : Feature) : Feature :=
  {| properties := with_pop (properties f) (pop (properties f));
     geometry := geometry f |}.

(** The comparator of [combined]. *)
Definition compare_pop (a b : Feature) : Z :=
  let pa := pop_or_m1 (properties a) in
  let pb := pop_or_m1 (properties b) in
  if (pa =? -1)%Z && (pb =? -1)%Z then 0%Z
  else if (pa =? -1)%Z then 1%Z
  else if (pb =? -1)%Z then (-1)%Z
  else (pa - pb)%Z.

Definition before (a b : Feature) : bool := (compare_pop a b <? 0)%Z.

(** [f.properties.pop ? rank++ : undefined]: zero is falsy. *)
Definition pop_truthy (p : FProps) : bool :=
  match pop p with
  | Some n => negb (n =? 0)%Z
  | None => false
  end.

Fixpoint assign_ranks (rank : nat) (l : list Feature) : list Feature :=
  match l with
  | [] => []
  | f :: l' =>
      if pop_truthy (properties f)
      then {| properties := with_rank (properties f) (Some rank);
              geometry := geometry f |} :: assign_ranks (S rank) l'
      else {| properties := with_rank (properties f) None;
              geometry := geometry f |} :: assign_ranks rank l'
  end.

Definition combined (s : State) : list Feature :=
  assign_ranks 1 (sort before (normalise <$> feats_of s)).

(** [nameMatch] *)
Definition nameMatch (query s : jsstring) : bool :=
  includes (toLowerCase s) (toLowerCase query).

Definition matches (query : jsstring) (p : FProps) : bool :=
  nameMatch query (name p)
  || (truthy (parent p) && nameMatch query (default [] (parent p)))
  || (truthy (county p) && nameMatch query (default [] (county p))).

Definition listItems (s : State) : list Feature :=
  filter (λ f, matches (query s) (properties f) = true) (combined s).

Definition of_kind (k : Kind) (l : list Feature) : list Feature :=
  filter (λ f, kind (properties f) = k) l.

(** [gemeindenFC] and [ortsteileFC] *)
Definition gemeindenFC (s : State) : option (list Feature) :=
  match gemeinden s with
  | None => None
  | Some _ => Some (of_kind gemeinde (combined s))
  end.

Definition ortsteileFC (s : State) : option (list Feature) :=
  match ortsteile s with
  | None => None
  | Some _ => Some (of_kind ortsteil (combined s))
  end.

Record View : Type := {
  list_items : list Feature;
  gemeinden_layer : option (list Feature);
  ortsteile_layer : option (list Feature);
}.

Definition render (s : State) : View :=
  {| list_items := listItems s;
     gemeinden_layer := if showGemeinden s then gemeindenFC s else None;
     ortsteile_layer := if showOrtsteile s then ortsteileFC s else None |}.

Inductive Request : Type := Gemeinden | Ortsteile.

(** [fetch(url).then((r) => r.json()).then((d) => setX(d))] *)
Definition load (world : Request → Fetched (list Feature)) (r : Request)
    : Outcome (list Feature) :=
  settle (then_ (fetch (world r)) json_of).

Inductive Event : Type :=
| SetQuery (q : jsstring)
| SetShowGemeinden (b : bool)
| SetShowOrtsteile (b : bool).

Definition handle (s : State) (e : Event) : State * list Request :=
  match e with
  | SetQuery q =>
      ({| gemeinden := gemeinden s; ortsteile := ortsteile s; query := q;
          showGemeinden := showGemeinden s;
          showOrtsteile := showOrtsteile s |}, [])
  | SetShowGemeinden b =>
      ({| gemeinden := gemeinden s; ortsteile := ortsteile s;
          query := query s; showGemeinden := b;
          showOrtsteile := showOrtsteile s |}, [])
  | SetShowOrtsteile b =>
      ({| gemeinden := gemeinden s; ortsteile := ortsteile s;
          query := query s; showGemeinden := showGemeinden s;
          showOrtsteile := b |}, [])
  end.

(** [useState] defaults. *)
Definition initial : State :=
  {| gemeinden := None; ortsteile := None; query := [];
     showGemeinden := true; showOrtsteile := true |}.

End MapLibre.

(** ** The producer's requests (scripts/fetch_vg250_ew.js, lines 15-53, 90-96) *)

Module ProducerIO.
Import Producer.

(** [GEM_TYPE] and [KRS_TYPE] *)
Inductive Resource : Type := GEM_TYPE | KRS_TYPE.

(** What a page of the service holds, as far as the script reads it. The
    two counts are numbers when present. *)
Record Page : Type := {
  totalFeatures : option nat;
  numberMatched : option nat;
  page_features : option (list RawFeature);
}.

(** The query a URL of [fetchPage] carries. *)
Record PageRequest : Type := {
  typeNames : Resource;
  startIndex : nat;
  count : nat;
}.

(** [fetchPage]: rejects on a network error, on a status that is not OK
    ([throw new Error]) and on a body that is no JSON. *)
Definition fetchPage (world : PageRequest → Fetched Page)
    (t : Resource) (start n : nat) : Promise Page :=
  then_ (fetch (world {| typeNames := t; startIndex := start; count := n |}))
    (λ r, if r.1 then json_of r else Rejected).

(** [Math.ceil(total / count)] for a positive [count], which is what both
    calls pass (1000 and 500). For [count = 0] this is 0, where the script
    would loop for ever on a positive total. *)
Definition pages_of (total n : nat) : nat := ((total + n - 1) / n)%nat.

(** The loop of [fetchAll], [todo] pages from page [i] on, [results] being
    what the earlier pages gave. *)
Fixpoint fetch_loop (world : PageRequest → Fetched Page) (t : Resource)
    (n : nat) (todo i : nat) (results : list RawFeature)
    : Promise (list RawFeature) :=
  match todo with
  | O => Resolved results
  | S todo' =>
      then_ (fetchPage world t (i * n) n)
        (λ j, match page_features j with
              | None => Rejected
              | Some fs => fetch_loop world t n todo' (S i) (results ++ fs)
              end)
  end.

Definition fetchAll (world : PageRequest → Fetched Page) (t : Resource)
    (total n : nat) : Promise (list RawFeature) :=
  fetch_loop world t n (pages_of total n) 0 [].

(** [a || b] on a count: zero and an absent count are falsy. *)
Definition count_or (a : option nat) (b : nat) : nat :=
  match a with
  | Some (S k) => S k
  | _ => b
  end.

(** [discoverTotal] *)
Definition discoverTotal (world : PageRequest → Fetched Page) (t : Resource)
    : Promise nat :=
  then_ (fetchPage world t 0 1)
    (λ j, Resolved
            (count_or (totalFeatures j)
               (count_or (numberMatched j)
                  (match page_features j with
                   | Some fs => length fs
                   | None => 0%nat
                   end)))).

(** [Promise.all([p, q])] *)
Definition both {A B} (p : Promise A) (q : Promise B) : Promise (A * B) :=
  then_ p (λ a, then_ q (λ b, Resolved (a, b))).

(** [JSON.stringify] on a property that is a number or [null]. *)
Definition json_number (v : option float) : option float :=
  v ≫= written_number.

(** A feature as the text [JSON.stringify] writes for it reads: strings as
    they are, an undefined property left out, the three numbers through
    [json_number], the geometry through [written_json]. *)
Definition stringify_feature (g : OutFeature) : OutFeature :=
  let p := properties g in
  {| properties :=
       {| id := id p; name := name p; county := county p; ags := ags p;
          pop := json_number (pop p);
          area_km2 := json_number (area_km2 p);
          density := json_number (density p) |};
     geometry := written_json (geometry g) |}.

(** [JSON.stringify(out)], by the features the text holds. *)
Definition stringify (out : list OutFeature) : list OutFeature :=
  stringify_feature <$> out.

(** What a run of the script leaves: the exit code, and the collection
    that [gemeinden.geojson] holds if it was written (the write itself is
    taken to succeed). *)
Record Exit : Type := {
  exit_code : nat;
  file : option (list OutFeature);
}.

(** The body of the script: [try { ... writeFileSync } catch { exit(1) }]. *)
Definition run (Number : jsstring → float) (world : PageRequest → Fetched Page)
    : Exit :=
  match
    then_ (discoverTotal world GEM_TYPE) (λ gemTotal,
    then_ (discoverTotal world KRS_TYPE) (λ krsTotal,
    then_ (both (fetchAll world GEM_TYPE gemTotal 1000)
                (fetchAll world KRS_TYPE krsTotal 500))
      (λ r, Resolved (build Number r.1 r.2))))
  with
  | Resolved out => {| exit_code := 0; file := Some (stringify out) |}
  | Rejected => {| exit_code := 1; file := None |}
  end.

(** The helper [density(pop, areaKm2)]; [None] is [null]. *)
Definition density (pop areaKm2 : option float) : option float :=
  match pop, areaKm2 with
  | Some p, Some a =>
      if negb (isFinite p) || negb (isFinite a) || PrimFloat.leb a 0
      then None
      else Some (p / a)%float
  | _, _ => None
  end.

End ProducerIO.

(** ** The Leaflet application: density colours and the zoom effect *)

Module LeafletView.
Import Leaflet.

(** [colorForDensity] *)
Definition colorForDensity (d : option float) : jsstring :=
  let v := default (-1)%float d in
  if PrimFloat.ltb v 0 then gray
  else if PrimFloat.leb v 50 then color 0
  else if PrimFloat.leb v 100 then color 1
  else if PrimFloat.leb v 200 then color 2
  else if PrimFloat.leb v 400 then color 3
  else if PrimFloat.leb v 800 then color 4
  else if PrimFloat.leb v 1200 then color 5
  else if PrimFloat.leb v 2000 then color 6
  else if PrimFloat.leb v 3000 then color 7
  else if PrimFloat.leb v 4000 then color 8
  else color 9.

(** The effect on [query] and [listItems]: the feature whose bounds the map
    is asked to fit, if any ([mapReady]: [mapRef.current] is set). Whether
    the bounds are valid is the map library's affair. *)
Definition fit_target (mapReady : bool) (query : jsstring)
    (items : list Feature) : option Feature :=
  if negb mapReady then None
  else if Unicode.is_blank query then None
  else head items.

(** A feature object read back: the property object it points to, and its
    geometry. *)
Definition deref (h : Heap) (f : GFeat) : Feature :=
  {| App.properties := h !!! properties f; App.geometry := geometry f |}.

(** The end of a chain of the load effect: the setter runs if the chain
    came to a value. *)
Definition receive (set : State → list Feature → State) (s : State)
    (o : Outcome (list Feature)) : State :=
  match set_to o with
  | Some fc => set s fc
  | None => s
  end.

(** [.then(setOrtsteile)]: the body handed over is a collection or
    [null]. *)
Definition receive_body (s : State) (o : Outcome Body) : State :=
  match set_to o with
  | Some (Some fc) => setOrtsteile s fc
  | Some None => clearOrtsteile s
  | None => s
  end.

(** The state once both chains of the load effect have settled, the
    municipalities first. *)
Definition started (world : Request → Fetched Body) : State :=
  receive_body
    (receive setGemeinden initial (load_gemeinden world))
    (load_ortsteile world).

End LeafletView.

(** ** Specification-side tables and example data *)

(** The breakpoint table as the specification lists it, and the band of a
    population: the number of breakpoints below it, so that a breakpoint
    itself still belongs to the band it closes. *)
Definition breakpoints : list Z :=
  [5000; 10000; 20000; 30000; 40000; 50000; 60000; 80000; 100000]%Z.

Definition band (p : Z) : nat :=
  length (filter (λ b, (b < p)%Z) breakpoints).

(** The four features of the specification's example, of populations
    50000, unknown, 20000 and 20000, named a, b, c and d. *)
Definition example_props (c : N) (n : option Z) : FProps :=
  {| id := [c]; name := [c]; parent := None; county := None; ags := None;
     pop := n; area_km2 := None; density := None; kind := gemeinde;
     rank := None |}.

Definition example_heap : Leaflet.Heap :=
  [example_props 97 (Some 50000%Z); example_props 98 None;
   example_props 99 (Some 20000%Z); example_props 100 (Some 20000%Z)].

Definition example_state : Leaflet.State :=
  {| Leaflet.heap := example_heap;
     Leaflet.gemeinden :=
       Some ((λ l, {| Leaflet.properties := l; Leaflet.geometry := JNull |})
               <$> [0; 1; 2; 3]%nat);
     Leaflet.ortsteile := None; Leaflet.query := [];
     Leaflet.showGemeinden := true; Leaflet.showOrtsteile := false |}.

Definition example_features : list Feature :=
  (λ p, {| properties := p; geometry := JNull |}) <$> example_heap.

Definition maplibre_example_state : MapLibre.State :=
  {| MapLibre.gemeinden := Some example_features; MapLibre.ortsteile := None;
     MapLibre.query := []; MapLibre.showGemeinden := true;
     MapLibre.showOrtsteile := true |}.

(** "München": M, u with diaeresis (U+00FC), n, c, h, e, n. *)
Definition Muenchen : jsstring := [77; 252; 110; 99; 104; 101; 110].

Definition Muenchen_props : FProps :=
  {| id := lit "09162000"; name := Muenchen; parent := None;
     county := Some Muenchen; ags := Some (lit "09162000");
     pop := Some 1500000%Z; area_km2 := None; density := None;
     kind := gemeinde; rank := None |}.

Definition search_state (q : jsstring) : Leaflet.State :=
  {| Leaflet.heap := [Muenchen_props];
     Leaflet.gemeinden := Some [ {| Leaflet.properties := 0%nat;
                                    Leaflet.geometry := JNull |} ];
     Leaflet.ortsteile := None; Leaflet.query := q;
     Leaflet.showGemeinden := true; Leaflet.showOrtsteile := false |}.

Definition maplibre_search_state (q : jsstring) : MapLibre.State :=
  {| MapLibre.gemeinden := Some [ {| properties := Muenchen_props;
                                     geometry := JNull |} ];
     MapLibre.ortsteile := None; MapLibre.query := q;
     MapLibre.showGemeinden := true; MapLibre.showOrtsteile := true |}.

(** A municipality of 100 inhabitants on 4 square kilometres whose density
    was not stored, and the state once it is loaded. *)
Definition sparse_props : FProps :=
  {| id := lit "01001000"; name := lit "A"; parent := None; county := None;
     ags := Some (lit "01001000"); pop := Some 100%Z;
     area_km2 := Some 4%float; density := None; kind := gemeinde;
     rank := None |}.

Definition density_state : Leaflet.State :=
  Leaflet.setGemeinden Leaflet.initial
    [ {| properties := sparse_props; geometry := JNull |} ].

(** A district; the state once the districts are loaded and the
    municipality switch has been turned off, so that both switches are off. *)
Definition district_props : FProps :=
  {| id := lit "o1"; name := lit "Altstadt"; parent := Some (lit "A");
     county := None; ags := None; pop := Some 1200%Z; area_km2 := None;
     density := None; kind := ortsteil; rank := None |}.

Definition both_off : Leaflet.State :=
  (Leaflet.handle
     (Leaflet.setOrtsteile Leaflet.initial
        [ {| properties := district_props; geometry := JNull |} ])
     (Leaflet.SetShowGemeinden false)).1.

Definition maplibre_both_off : MapLibre.State :=
  {| MapLibre.gemeinden := None;
     MapLibre.ortsteile := Some [ {| properties := district_props;
                                     geometry := JNull |} ];
     MapLibre.query := [];
     MapLibre.showGemeinden := false; MapLibre.showOrtsteile := false |}.

(** Parsing in the claim's words: a number is taken as it is, a string is
    read by [Number] once its grouping commas (code unit 44) are taken out,
    and what is no finite number after that is absent. *)
Fixpoint without_commas (s : jsstring) : jsstring :=
  match s with
  | [] => []
  | c :: s' => if c =? 44 then without_commas s' else c :: without_commas s'
  end.

Definition parsed (Number : jsstring → float) (v : option json) : option float :=
  match v with
  | Some (JNum x) => if isFinite x then Some x else None
  | Some (JStr s) =>
      if isFinite (Number (without_commas s))
      then Some (Number (without_commas s)) else None
  | _ => None
  end.

(** A municipality of 2^1023 inhabitants on 2^-1000 square kilometres. *)
Definition overflow_feature : Producer.RawFeature :=
  {| Producer.r_properties :=
       Some {| Producer.r_ags := Some (lit "01001000");
               Producer.r_ars := None; Producer.r_sdv_ars := None;
               Producer.r_gen := None; Producer.r_bez := None;
               Producer.r_ewz := Some (JNum 0x1p1023%float);
               Producer.r_kfl := Some (JNum 0x1p-1000%float) |};
     Producer.r_geometry := JNull |}.

(** A municipality whose population is the string 1,234,567 and whose area
    is the number 310.5. *)
Definition grouped_feature : Producer.RawFeature :=
  {| Producer.r_properties :=
       Some {| Producer.r_ags := Some (lit "09162000");
               Producer.r_ars := None; Producer.r_sdv_ars := None;
               Producer.r_gen := None; Producer.r_bez := None;
               Producer.r_ewz := Some (JStr (lit "1,234,567"));
               Producer.r_kfl := Some (JNum 310.5%float) |};
     Producer.r_geometry := JNull |}.

(** A state whose query and whose search fields (name, county and key of
    every loaded feature) are Latin-1. *)
Definition latin1_props (p : FProps) : bool :=
  Unicode.latin1 (name p)
  && Unicode.latin1 (default [] (county p))
  && Unicode.latin1 (default [] (ags p)).

Definition latin1_state (s : Leaflet.State) : bool :=
  Unicode.latin1 (Leaflet.query s)
  && forallb (λ f, latin1_props (Leaflet.heap s !!! Leaflet.properties f))
       (Leaflet.arr_of s).

(** A service that answers every page request for [t] with the slice it
    asks for of the data set [D], reporting the size of [D]. *)
Definition serves (world : ProducerIO.PageRequest → Fetched ProducerIO.Page)
    (t : ProducerIO.Resource) (D : list Producer.RawFeature) : Prop :=
  ∀ start n, ∃ j,
    world {| ProducerIO.typeNames := t; ProducerIO.startIndex := start;
             ProducerIO.count := n |}
      = Response true (Some j)
    ∧ ProducerIO.totalFeatures j = Some (length D)
    ∧ (ProducerIO.numberMatched j = None
       ∨ ProducerIO.numberMatched j = Some (length D))
    ∧ ProducerIO.page_features j = Some (take n (drop start D)).

(** Such a service over the municipalities [G] and the counties [K], and
    three municipalities without properties. *)
Definition paged_service (G K : list Producer.RawFeature)
    (r : ProducerIO.PageRequest) : Fetched ProducerIO.Page :=
  let D := match ProducerIO.typeNames r with
           | ProducerIO.GEM_TYPE => G
           | ProducerIO.KRS_TYPE => K
           end in
  Response true
    (Some {| ProducerIO.totalFeatures := Some (length D);
             ProducerIO.numberMatched := None;
             ProducerIO.page_features :=
               Some (take (ProducerIO.count r) (drop (ProducerIO.startIndex r) D)) |}).

Definition three_raw : list Producer.RawFeature :=
  replicate 3 {| Producer.r_properties := None; Producer.r_geometry := JNull |}.

(** The 2-character identifier prefix in the claims' words: the first two
    code units of [ags] when the feature has a non-empty one, else of [id]
    when it has a non-empty one, else of the empty string. *)
Definition identifier_prefix (f : Splitter.Feature) : jsstring :=
  match Splitter.properties f with
  | Some p =>
      match Splitter.ags p, Splitter.id p with
      | Some (a :: s), _ => take 2 (a :: s)
      | _, Some (i :: s) => take 2 (i :: s)
      | _, _ => []
      end
  | None => []
  end.

(** A municipality whose identifier starts with a digit and a slash, alone
    and after a feature without properties. *)
Definition slash_feature : Splitter.Feature :=
  {| Splitter.properties :=
       Some {| Splitter.ags := Some (lit "1/234567");
               Splitter.id := None; Splitter.other := JNull |};
     Splitter.geometry := JNull |}.

Definition slash_collection : Splitter.FeatureCollection :=
  {| Splitter.features := [slash_feature] |}.

Definition slash_and_nameless : Splitter.FeatureCollection :=
  {| Splitter.features :=
       [ slash_feature;
         {| Splitter.properties := None; Splitter.geometry := JNull |} ] |}.

(** A collection to split, how a feature of it reads as a feature of the
    application, and the chunk requests answered from the one file of a
    state code that the splitter writes for it. *)
Definition split_example : Splitter.FeatureCollection :=
  {| Splitter.features :=
       [ {| Splitter.properties :=
              Some {| Splitter.ags := Some (lit "01001000");
                      Splitter.id := None; Splitter.other := JNull |};
            Splitter.geometry := JNull |};
         {| Splitter.properties := None; Splitter.geometry := JNull |} ] |}.

Definition decode_example (f : Splitter.Feature) : Feature :=
  {| properties := example_props 97 (Some 1%Z);
     geometry := Splitter.geometry f |}.

Definition served_chunks (fc : Splitter.FeatureCollection)
    (r : Leaflet.Request) : Fetched Leaflet.Body :=
  match r with
  | Leaflet.Chunk c =>
      if decide (c = lit "01")
      then Response true
             (Some (Some (decode_example
                            <$> filter (λ f, Splitter.state_of f = lit "01")
                                  (Splitter.features fc))))
      else NetworkError
  | Leaflet.Ortsteile => NetworkError
  end.

(** * Properties *)

(** ** The stable sort *)

Section SortFacts.
Context {A : Type} (lt : A → A → bool).

Lemma insert_sorted_Permutation (x : A) (l : list A) :
  insert_sorted lt x l ≡ₚ x :: l.
Proof.
  induction l as [|y l IH]; simpl; [done|].
  destruct (lt y x); [|done].
  rewrite IH. apply Permutation_swap.
Qed.

Lemma sort_Permutation (l : list A) : sort lt l ≡ₚ l.
Proof.
  induction l as [|x l IH]; simpl; [done|].
  rewrite insert_sorted_Permutation. by rewrite IH.
Qed.

Lemma elem_of_sort (l : list A) (x : A) : x ∈ sort lt l ↔ x ∈ l.
Proof. by rewrite sort_Permutation. Qed.

(** Elements that the comparator does not separate keep their order. *)
Lemma insert_sorted_filter (P : A → Prop) `{!∀ x, Decision (P x)}
    (x : A) (l : list A) :
  (∀ y, P x → P y → lt y x = false) →
  filter P (insert_sorted lt x l) = filter P (x :: l).
Proof.
  intros Hsame. induction l as [|y l IH]; simpl; [done|].
  destruct (lt y x) eqn:Hyx; [|done].
  rewrite !filter_cons in *. rewrite IH.
  destruct (decide (P x)) as [Hx|Hx], (decide (P y)) as [Hy|Hy]; try done.
  specialize (Hsame y Hx Hy). congruence.
Qed.

Lemma sort_stable (P : A → Prop) `{!∀ x, Decision (P x)} (l : list A) :
  (∀ x y, P x → P y → lt x y = false) →
  filter P (sort lt l) = filter P l.
Proof.
  intros Hsame. induction l as [|x l IH]; simpl; [done|].
  rewrite insert_sorted_filter by eauto.
  rewrite !filter_cons. by rewrite IH.
Qed.

(** With an asymmetric comparator the result is sorted: no element is
    followed by one that the comparator puts strictly before it. *)
Lemma insert_sorted_Sorted (x : A) (l : list A) :
  (∀ a b, lt a b = true → lt b a = false) →
  Sorted (not_after lt) l → Sorted (not_after lt) (insert_sorted lt x l).
Proof.
  intros Hasym. induction 1 as [|y l Hl IH Hhd]; simpl.
  - repeat constructor.
  - destruct (lt y x) eqn:Hyx.
    + constructor; [done|].
      destruct Hhd as [|z l Hyz]; simpl.
      * constructor. by apply Hasym.
      * destruct (lt z x); constructor; [done|]. by apply Hasym.
    + constructor; [by constructor|]. by constructor.
Qed.

Lemma sort_Sorted (l : list A) :
  (∀ a b, lt a b = true → lt b a = false) →
  Sorted (not_after lt) (sort lt l).
Proof.
  intros Hasym. induction l as [|x l IH]; simpl; [constructor|].
  by apply insert_sorted_Sorted.
Qed.
End SortFacts.

(** ** The order on strings *)

Lemma str_ltb_asym (a b : jsstring) : str_ltb a b = true → str_ltb b a = false.
Proof.
  revert b. induction a as [|x a IH]; intros [|y b]; simpl; try done.
  destruct (N.ltb_spec x y), (N.ltb_spec y x); try done; try lia.
  apply IH.
Qed.

Lemma str_ltb_total (a b : jsstring) :
  str_ltb a b = false → str_ltb b a = false → a = b.
Proof.
  revert b. induction a as [|x a IH]; intros [|y b]; simpl; try done.
  destruct (N.ltb_spec x y), (N.ltb_spec y x); try done.
  intros. f_equal; [lia|]. by apply IH.
Qed.

(** ** The splitter *)

Section SplitterFacts.
Import Splitter.

Lemma push_to_keys (k : jsstring) (f : Feature) (by_ : ByState) :
  (push_to k f by_).*1 = by_.*1.
Proof.
  induction by_ as [|[k' fs] by_ IH]; simpl; [done|].
  destruct (decide (k' = k)); simpl; [done|]. f_equal. apply IH.
Qed.

Lemma get_push_to_eq (k : jsstring) (f : Feature) (by_ : ByState) :
  k ∈ by_.*1 → get (push_to k f by_) k = get by_ k ++ [f].
Proof.
  induction by_ as [|[k' fs] by_ IH]; simpl.
  - by intros ?%elem_of_nil.
  - intros Hin. destruct (decide (k' = k)) as [->|Hne]; simpl.
    + by rewrite decide_True.
    + rewrite decide_False by done. apply IH.
      apply elem_of_cons in Hin as [?|?]; [congruence|done].
Qed.

Lemma get_push_to_ne (k k' : jsstring) (f : Feature) (by_ : ByState) :
  k' ≠ k → get (push_to k f by_) k' = get by_ k'.
Proof.
  intros Hne. induction by_ as [|[k0 fs] by_ IH]; simpl; [done|].
  destruct (decide (k0 = k)) as [->|Hne0]; simpl.
  - by rewrite !decide_False.
  - destruct (decide (k0 = k')); [done|apply IH].
Qed.

Lemma get_snoc (k k' : jsstring) (by_ : ByState) :
  get (by_ ++ [(k, [])]) k' = get by_ k'.
Proof.
  induction by_ as [|[k0 fs] by_ IH]; simpl.
  - by destruct (decide (k = k')).
  - destruct (decide (k0 = k')); [done|apply IH].
Qed.

(** What the map holds after the loop has seen [seen]: one entry per
    prefix met, holding the features of that prefix in input order. *)
Lemma step_grouped (by_ : ByState) (seen : list Feature) (f : Feature) :
  NoDup by_.*1 →
  (∀ k, k ∈ by_.*1 ↔ ∃ g, g ∈ seen ∧ state_of g = k) →
  (∀ k, get by_ k = filter (λ g, state_of g = k) seen) →
  NoDup (step by_ f).*1 ∧
  (∀ k, k ∈ (step by_ f).*1 ↔ ∃ g, g ∈ seen ++ [f] ∧ state_of g = k) ∧
  (∀ k, get (step by_ f) k = filter (λ g, state_of g = k) (seen ++ [f])).
Proof.
  intros Hnd Hkeys Hget. unfold step, has. cbv zeta.
  set (by1 := if bool_decide _ then _ else _).
  assert (Hkeys1 : by1.*1 ≡ₚ if bool_decide (state_of f ∈ by_.*1)
                              then by_.*1 else state_of f :: by_.*1).
  { unfold by1. case_bool_decide; [done|].
    rewrite fmap_app. simpl. by rewrite Permutation_app_comm. }
  assert (Hin1 : state_of f ∈ by1.*1).
  { rewrite Hkeys1. case_bool_decide; [done|]. apply elem_of_cons; by left. }
  assert (Hget1 : ∀ k, get by1 k = get by_ k).
  { intros k. unfold by1. case_bool_decide; [done|]. apply get_snoc. }
  rewrite push_to_keys. split_and!.
  - rewrite Hkeys1. case_bool_decide; [done|]. by constructor.
  - intros k. rewrite Hkeys1. setoid_rewrite elem_of_app.
    setoid_rewrite list_elem_of_singleton.
    case_bool_decide as Hf.
    + rewrite Hkeys. split; [intros (g & Hg & Hk); eauto|].
      intros (g & [Hg| ->] & <-); [eauto|]. by apply Hkeys.
    + rewrite elem_of_cons, Hkeys. split.
      * intros [->|(g & Hg & Hk)]; eauto.
      * intros (g & [Hg| ->] & Hk); eauto.
  - intros k. rewrite filter_app, filter_cons, filter_nil.
    destruct (decide (state_of f = k)) as [<-|Hne].
    + rewrite get_push_to_eq by done. by rewrite Hget1, Hget.
    + rewrite get_push_to_ne by done. rewrite Hget1, Hget.
      by rewrite app_nil_r.
Qed.

Lemma foldl_step_grouped (rest seen : list Feature) (by_ : ByState) :
  NoDup by_.*1 →
  (∀ k, k ∈ by_.*1 ↔ ∃ g, g ∈ seen ∧ state_of g = k) →
  (∀ k, get by_ k = filter (λ g, state_of g = k) seen) →
  NoDup (foldl step by_ rest).*1 ∧
  (∀ k, k ∈ (foldl step by_ rest).*1 ↔ ∃ g, g ∈ seen ++ rest ∧ state_of g = k) ∧
  (∀ k, get (foldl step by_ rest) k = filter (λ g, state_of g = k) (seen ++ rest)).
Proof.
  revert seen by_. induction rest as [|f rest IH]; intros seen by_ Hnd Hkeys Hget.
  - simpl. by rewrite app_nil_r.
  - simpl. destruct (step_grouped by_ seen f) as (Hnd' & Hkeys' & Hget'); [done..|].
    specialize (IH (seen ++ [f]) (step by_ f) Hnd' Hkeys' Hget').
    by rewrite <-(assoc_L (++)) in IH.
Qed.

Lemma group_grouped (fs : list Feature) :
  NoDup (group fs).*1 ∧
  (∀ k, k ∈ (group fs).*1 ↔ ∃ g, g ∈ fs ∧ state_of g = k) ∧
  (∀ k, get (group fs) k = filter (λ g, state_of g = k) fs).
Proof.
  apply (foldl_step_grouped fs [] []).
  - constructor.
  - intros k. split; [by intros ?%elem_of_nil|].
    by intros (g & ?%elem_of_nil & _).
  - done.
Qed.

Lemma mjoin_cons {B : Type} (l : list B) (ls : list (list B)) :
  mjoin (l :: ls) = l ++ mjoin ls.
Proof. done. Qed.

(** Concatenating the classes of a key function, one per key of a
    duplicate-free list that covers the keys met, permutes the list. *)
Lemma join_classes_Permutation (ks : list jsstring) (l : list Feature) :
  NoDup ks →
  (∀ g, g ∈ l → state_of g ∈ ks) →
  mjoin ((λ k, filter (λ g, state_of g = k) l) <$> ks) ≡ₚ l.
Proof.
  intros Hnd. induction l as [|x l IH]; intros Hcov.
  - clear. induction ks as [|k ks IH]; simpl; [done|]. by rewrite IH.
  - destruct (list_elem_of_split ks (state_of x)) as (ks1 & ks2 & ->).
    { apply Hcov. by left. }
    apply NoDup_app in Hnd as Hnd'. destruct Hnd' as (_ & Hnot1 & Hnd2).
    apply NoDup_cons in Hnd2 as [Hnot2 _].
    assert (Hother : ∀ ks' : list jsstring, state_of x ∉ ks' →
      (λ k, filter (λ g, state_of g = k) (x :: l)) <$> ks'
      = (λ k, filter (λ g, state_of g = k) l) <$> ks').
    { intros ks' Hnot. apply list_fmap_ext. intros i k Hk.
      apply filter_cons_False. intros <-. apply Hnot.
      by eapply list_elem_of_lookup_2. }
    rewrite fmap_app, fmap_cons, join_app, mjoin_cons.
    rewrite !Hother by (try done; intros ?; by eapply Hnot1; [|left]).
    rewrite filter_cons_True by done.
    rewrite <-app_comm_cons, <-Permutation_middle. constructor.
    etrans; [|apply IH; intros g Hg; apply Hcov; by right].
    by rewrite fmap_app, fmap_cons, join_app, mjoin_cons.
Qed.

Lemma codes_of_group (fs : list Feature) :
  NoDup (codes_of (group fs)) ∧
  (∀ k, k ∈ codes_of (group fs) ↔ ∃ g, g ∈ fs ∧ state_of g = k) ∧
  Sorted (λ a b, str_ltb a b = true) (codes_of (group fs)).
Proof.
  destruct (group_grouped fs) as (Hnd & Hkeys & _). unfold codes_of.
  assert (Hnd' : NoDup (sort str_ltb (group fs).*1)) by by rewrite sort_Permutation.
  split_and!; [done| |].
  - intros k. by rewrite elem_of_sort.
  - pose proof (sort_Sorted str_ltb (group fs).*1 str_ltb_asym) as Hs.
    revert Hnd' Hs. generalize (sort str_ltb (group fs).*1). intros l Hnd'.
    induction 1 as [|a l Hl IH Hhd]; [constructor|].
    apply NoDup_cons in Hnd' as [Ha Hnd'].
    constructor; [by apply IH|].
    destruct Hhd as [|b l Hab]; constructor.
    destruct (str_ltb a b) eqn:Hlt; [done|].
    exfalso. apply Ha. rewrite (str_ltb_total a b Hlt Hab). by left.
Qed.

Lemma file_name_inj : Inj (=) (=) file_name.
Proof.
  intros a b. unfold file_name. intros H.
  apply app_inv_head in H. by apply app_inv_tail in H.
Qed.

Lemma mjoin_fmap_fmap {K B C : Type} (f : B → C) (F : K → list B)
    (ks : list K) :
  mjoin ((λ k, f <$> F k) <$> ks) = f <$> mjoin (F <$> ks).
Proof. induction ks as [|k ks IH]; csimpl; [done|]. by rewrite fmap_app, IH. Qed.

Lemma fmap_fixed {B : Type} (g : B → B) (l : list B) :
  (∀ x, x ∈ l → g x = x) → g <$> l = l.
Proof.
  induction l as [|x l IH]; intros Hl; [done|]. csimpl.
  rewrite Hl by by left. f_equal. apply IH. intros y Hy. apply Hl. by right.
Qed.

(** *** What the written text holds *)

Lemma json_induction (P : json → Prop) :
  P JNull → (∀ b, P (JBool b)) → (∀ x, P (JNum x)) → (∀ t, P (JStr t)) →
  (∀ items, Forall P items → P (JArr items)) →
  (∀ fields, Forall (λ kv, P kv.2) fields → P (JObj fields)) →
  ∀ j, P j.
Proof.
  intros Hnull Hbool Hnum Hstr Harr Hobj. fix IH 1.
  intros [|b|x|t|items|fields]; [done..| |].
  - apply Harr. induction items as [|j items IHitems]; constructor.
    + apply IH.
    + apply IHitems.
  - apply Hobj. induction fields as [|[k j] fields IHfields]; constructor.
    + apply IH.
    + apply IHfields.
Qed.

Lemma written_number_idem (x y : float) :
  written_number x = Some y → written_number y = Some y.
Proof.
  unfold written_number.
  destruct (PrimFloat.is_finite x) eqn:Hfin; [|done].
  destruct (PrimFloat.eqb x 0) eqn:Hzero; intros [= <-].
  - reflexivity.
  - by rewrite Hfin, Hzero.
Qed.

(** Writing what was written changes nothing. *)
Lemma written_json_idem (j : json) : written_json (written_json j) = written_json j.
Proof.
  induction j as [|b|x|t|items IH|fields IH] using json_induction;
    cbn [written_json]; try done.
  - destruct (written_number x) as [y|] eqn:Hx; [|done].
    cbn [written_json]. by rewrite (written_number_idem x y Hx).
  - f_equal. rewrite <-list_fmap_compose.
    apply Forall_fmap_ext_1. exact IH.
  - f_equal. rewrite <-list_fmap_compose.
    apply Forall_fmap_ext_1. eapply Forall_impl; [exact IH|].
    intros [k j] Hj. cbn in *. by rewrite Hj.
Qed.

Lemma written_feature_idem (f : Feature) :
  written_feature (written_feature f) = written_feature f.
Proof.
  unfold written_feature. cbn [properties geometry].
  rewrite written_json_idem. f_equal.
  destruct (properties f) as [p|]; [|done]. cbn. by rewrite written_json_idem.
Qed.

Lemma state_of_written (f : Feature) :
  state_of (written_feature f) = state_of f.
Proof.
  unfold state_of, ags_of, written_feature. cbn [properties].
  by destruct (properties f).
Qed.

Lemma state_of_prefix (f : Feature) : state_of f = identifier_prefix f.
Proof.
  unfold state_of, ags_of, identifier_prefix, or_else, slice0.
  destruct (properties f) as [[[[|a s]|] [[|i t]|] o]|]; reflexivity.
Qed.

Lemma filter_prefix (code : jsstring) (l : list Feature) :
  filter (λ f, identifier_prefix f = code) l
  = filter (λ f, state_of f = code) l.
Proof. apply list_filter_iff. intros f. by rewrite state_of_prefix. Qed.

(** *** Names on disk *)

Lemma on_disk_cons (c : N) (s : jsstring) :
  on_disk (c :: s)
  = if is_lead c then
      match s with
      | d :: s' => if is_trail d then c :: d :: on_disk s'
                   else 65533 :: on_disk s
      | [] => [65533]
      end
    else if is_trail c then 65533 :: on_disk s
    else c :: on_disk s.
Proof. by destruct s. Qed.

Lemma length_on_disk (s : jsstring) : length (on_disk s) = length s.
Proof.
  assert (H : ∀ (n : nat) (s : jsstring),
            (length s ≤ n)%nat → length (on_disk s) = length s).
  { clear s. intros n. induction n as [|n IH]; intros [|c s] Hn; try done.
    - cbn [length] in Hn. lia.
    - rewrite on_disk_cons. cbn [length] in Hn.
      destruct (is_lead c); [destruct s as [|d s']; [done|]|].
      + cbn [length] in Hn. destruct (is_trail d); cbn [length].
        * rewrite IH by lia. done.
        * rewrite (IH (d :: s')) by (cbn [length]; lia). done.
      + destruct (is_trail c); cbn [length]; by rewrite IH by lia. }
  by apply (H (length s)).
Qed.

Lemma on_disk_file_name_empty (code : jsstring) :
  on_disk (file_name code) = on_disk (file_name []) → code = [].
Proof.
  intros H. apply (f_equal length) in H.
  rewrite !length_on_disk in H. unfold file_name in H.
  rewrite !length_app in H. apply nil_length_inv.
  cbn [length] in H. lia.
Qed.

(** *** The loop that writes *)

Lemma write_step_thrown (by_ : ByState) (r : Run) (c : jsstring) :
  thrown r = true → write_step by_ r c = r.
Proof. intros Hr. unfold write_step. by rewrite Hr. Qed.

Lemma write_step_written (by_ : ByState) (r : Run) (c : jsstring) :
  thrown r = false → writable (file_name c) = true →
  write_step by_ r c
  = {| written := write_file (written r) (on_disk (file_name c))
                    {| features := written_feature <$> get by_ c |};
       stderr := stderr r ++ [(c, length (get by_ c))];
       thrown := false |}.
Proof.
  intros Hr Hc. unfold write_step. by rewrite Hr, Hc.
Qed.

Lemma write_file_fresh (files : list (jsstring * FeatureCollection))
    (name : jsstring) (data : FeatureCollection) :
  name ∉ files.*1 → write_file files name data = files ++ [(name, data)].
Proof.
  intros Hn. unfold write_file. f_equal.
  induction files as [|w files IH]; [done|].
  rewrite fmap_cons, not_elem_of_cons in Hn. destruct Hn as [Hw Hn].
  rewrite filter_cons_True by done. f_equal. by apply IH.
Qed.

(** When every name can be written and no two names are the same on disk,
    the loop writes one file per code, in the order of the codes. *)
Lemma foldl_write_step_ok (by_ : ByState) (l : list jsstring) (r : Run) :
  thrown r = false →
  Forall (λ c, writable (file_name c) = true) l →
  NoDup ((λ c, on_disk (file_name c)) <$> l) →
  (∀ c, c ∈ l → on_disk (file_name c) ∉ (written r).*1) →
  foldl (write_step by_) r l
  = {| written := written r
                  ++ ((λ c, (on_disk (file_name c), {| features := written_feature <$> get by_ c |}))
                        <$> l);
       stderr := stderr r ++ ((λ c, (c, length (get by_ c))) <$> l);
       thrown := false |}.
Proof.
  revert r. induction l as [|c l IH]; intros r Hr Hw Hnd Hfresh.
  - cbn [foldl fmap list_fmap]. rewrite !app_nil_r.
    destruct r as [w e t]. simpl in Hr. by rewrite Hr.
  - apply Forall_cons in Hw as [Hc Hw].
    rewrite fmap_cons in Hnd. apply NoDup_cons in Hnd as [Hnot Hnd].
    cbn [foldl]. rewrite (write_step_written by_ r c Hr Hc).
    assert (Hc' : on_disk (file_name c) ∉ (written r).*1).
    { apply Hfresh. by left. }
    rewrite (write_file_fresh _ _ _ Hc').
    rewrite IH; [| done | done | done |].
    + cbn [written stderr]. by rewrite !fmap_cons, <-!app_assoc.
    + intros c' Hin. cbn [written]. rewrite fmap_app, elem_of_app.
      intros [Hold|Hnew].
      * revert Hold. apply Hfresh. by right.
      * apply list_elem_of_singleton in Hnew.
        change (on_disk (file_name c') = on_disk (file_name c)) in Hnew.
        apply Hnot. rewrite <-Hnew. apply list_elem_of_fmap. by exists c'.
Qed.

(** The run ends by an exception exactly when a name cannot be written. *)
Lemma thrown_foldl (by_ : ByState) (l : list jsstring) (r : Run) :
  thrown (foldl (write_step by_) r l)
  = thrown r || existsb (λ c, negb (writable (file_name c))) l.
Proof.
  revert r. induction l as [|c l IH]; intros r.
  - cbn [foldl existsb]. by rewrite orb_false_r.
  - cbn [foldl existsb]. rewrite IH. unfold write_step.
    destruct (thrown r) eqn:Hr; [by rewrite Hr|].
    destruct (writable (file_name c)); by simpl.
Qed.

Lemma stderr_foldl (by_ : ByState) (l : list jsstring) (r : Run) :
  thrown (foldl (write_step by_) r l) = false →
  stderr (foldl (write_step by_) r l)
  = stderr r ++ ((λ c, (c, length (get by_ c))) <$> l).
Proof.
  revert r. induction l as [|c l IH]; intros r Hend.
  - cbn [foldl fmap list_fmap]. by rewrite app_nil_r.
  - cbn [foldl] in *. rewrite IH by done.
    rewrite thrown_foldl in Hend. apply orb_false_iff in Hend as [Hstep _].
    unfold write_step in *.
    destruct (thrown r) eqn:Hr; [by rewrite Hr in Hstep|].
    destruct (writable (file_name c)); [|done].
    cbn [stderr features]. by rewrite fmap_cons, <-app_assoc.
Qed.

Lemma written_foldl_nonempty (by_ : ByState) (l : list jsstring) (r : Run) :
  thrown (foldl (write_step by_) r l) = false →
  written r ≠ [] ∨ l ≠ [] →
  written (foldl (write_step by_) r l) ≠ [].
Proof.
  revert r. induction l as [|c l IH]; intros r Hend Hne.
  - by destruct Hne.
  - cbn [foldl] in *. apply IH; [done|]. left.
    rewrite thrown_foldl in Hend. apply orb_false_iff in Hend as [Hstep _].
    unfold write_step in *.
    destruct (thrown r) eqn:Hr; [by rewrite Hr in Hstep|].
    destruct (writable (file_name c)); [|done].
    cbn [written]. unfold write_file. by intros [_ ?]%app_eq_nil.
Qed.

(** What holds of every file a turn writes holds of every file left. *)
Lemma written_foldl_Forall (by_ : ByState)
    (P : jsstring * FeatureCollection → Prop) (l : list jsstring) (r : Run) :
  Forall P (written r) →
  (∀ c, c ∈ l → writable (file_name c) = true →
        P (on_disk (file_name c), {| features := written_feature <$> get by_ c |})) →
  Forall P (written (foldl (write_step by_) r l)).
Proof.
  revert r. induction l as [|c l IH]; intros r Hr Hl; [done|].
  cbn [foldl]. apply IH; [|intros c' Hc'; apply Hl; by right].
  unfold write_step. destruct (thrown r); [done|].
  destruct (writable (file_name c)) eqn:Hc; [|done].
  cbn [written]. unfold write_file. apply Forall_app. split.
  - apply Forall_forall. intros x [_ Hx]%list_elem_of_filter.
    exact (proj1 (Forall_forall _ _) Hr x Hx).
  - apply Forall_singleton. apply Hl; [by left|done].
Qed.

(** A file stays as it is while no later turn writes its name. *)
Lemma written_foldl_keeps (by_ : ByState) (w : jsstring * FeatureCollection)
    (l : list jsstring) (r : Run) :
  w ∈ written r →
  (∀ c, c ∈ l → on_disk (file_name c) ≠ w.1) →
  w ∈ written (foldl (write_step by_) r l).
Proof.
  revert r. induction l as [|c l IH]; intros r Hw Hl; [done|].
  cbn [foldl]. apply IH; [|intros c' Hc'; apply Hl; by right].
  unfold write_step. destruct (thrown r); [done|].
  destruct (writable (file_name c)); [|done].
  cbn [written]. unfold write_file. apply elem_of_app. left.
  apply list_elem_of_filter. split; [|done].
  intros Heq. eapply Hl; [by left|done].
Qed.

(** The whole run when every prefix can be written and no two prefixes
    share a name on disk. *)
Lemma main_ok (fc : FeatureCollection) :
  (∀ f, f ∈ features fc → writable (file_name (state_of f)) = true) →
  (∀ f g, f ∈ features fc → g ∈ features fc →
          on_disk (file_name (state_of f)) = on_disk (file_name (state_of g)) →
          state_of f = state_of g) →
  main fc
  = {| written :=
         (λ code, (on_disk (file_name code),
                   {| features :=
                        written_feature
                          <$> filter (λ f, state_of f = code) (features fc) |}))
           <$> codes_of (group (features fc));
       stderr :=
         (λ code, (code, length (filter (λ f, state_of f = code) (features fc))))
           <$> codes_of (group (features fc));
       thrown := false |}.
Proof.
  intros Hw Hinj.
  destruct (codes_of_group (features fc)) as (Hnd & Hin & _).
  destruct (group_grouped (features fc)) as (_ & _ & Hget).
  unfold main. cbv zeta. rewrite foldl_write_step_ok.
  - cbn [written stderr app]. f_equal.
    + apply list_fmap_ext. intros i code _. by rewrite Hget.
    + apply list_fmap_ext. intros i code _. by rewrite Hget.
  - done.
  - apply Forall_forall. intros c (f & Hf & <-)%Hin. by apply Hw.
  - apply NoDup_fmap_2_strong; [|done].
    intros c1 c2 (f & Hf & <-)%Hin (g & Hg & <-)%Hin. by apply Hinj.
  - intros c _. cbn [written fmap list_fmap]. apply not_elem_of_nil.
Qed.
End SplitterFacts.

Section SplitterClaims.
Import Splitter.

(** The hypotheses of the claims, which speak of the identifier prefix, as
    hypotheses on the key the script computes. *)
Lemma main_ok_prefix (fc : FeatureCollection) :
  (∀ f, f ∈ features fc → writable (file_name (identifier_prefix f)) = true) →
  (∀ f g, f ∈ features fc → g ∈ features fc →
          on_disk (file_name (identifier_prefix f))
          = on_disk (file_name (identifier_prefix g)) →
          identifier_prefix f = identifier_prefix g) →
  main fc
  = {| written :=
         (λ code, (on_disk (file_name code),
                   {| features :=
                        written_feature
                          <$> filter (λ f, identifier_prefix f = code)
                                (features fc) |}))
           <$> codes_of (group (features fc));
       stderr :=
         (λ code, (code, length (filter (λ f, identifier_prefix f = code)
                                   (features fc))))
           <$> codes_of (group (features fc));
       thrown := false |}.
Proof.
  intros Hw Hinj. rewrite main_ok.
  - f_equal; apply list_fmap_ext; intros i code _; by rewrite filter_prefix.
  - intros f Hf. rewrite state_of_prefix. by apply Hw.
  - intros f g Hf Hg. rewrite !state_of_prefix. by apply Hinj.
Qed.

(** The claim C4 as stated fails: a collection whose one feature has a
    prefix with a slash makes the first write throw, so that nothing is
    written and nothing can be reassembled. *)
Lemma splitter_slash_key_lost :
  ¬ (∀ fc : FeatureCollection, reassemble (main fc) ≡ₚ features fc)
  ∧ identifier_prefix slash_feature = lit "1/"
  ∧ written_feature slash_feature = slash_feature
  ∧ written (main slash_collection) = []
  ∧ thrown (main slash_collection) = true.
Proof.
  split_and!; [|reflexivity..].
  intros H. specialize (H slash_collection).
  apply Permutation_length in H. vm_compute in H. discriminate H.
Qed.

(** C4, amended. When every identifier prefix can be written as part of a
    file name (it holds neither a slash nor a NUL) and no two prefixes give
    the same name on disk, the run ends without an exception, and
    concatenating the written partitions in the order of their (sorted,
    pairwise different) codes gives a permutation of the input as
    [JSON.stringify] writes it, which is the input itself when it holds no
    number that JSON writes otherwise; there is one partition per prefix
    met, and every partition is the input filtered by its prefix, so the
    features of a partition stand in their input order. *)
Theorem splitter_reassemble_permutation (fc : FeatureCollection) :
  (∀ f, f ∈ features fc → writable (file_name (identifier_prefix f)) = true) →
  (∀ f g, f ∈ features fc → g ∈ features fc →
          on_disk (file_name (identifier_prefix f))
          = on_disk (file_name (identifier_prefix g)) →
          identifier_prefix f = identifier_prefix g) →
  thrown (main fc) = false
  ∧ reassemble (main fc) ≡ₚ written_feature <$> features fc
  ∧ ((∀ f, f ∈ features fc → written_feature f = f) →
     reassemble (main fc) ≡ₚ features fc)
  ∧ ∃ codes : list jsstring,
      Sorted (λ a b, str_ltb a b = true) codes
      ∧ (∀ c, c ∈ codes ↔ ∃ f, f ∈ features fc ∧ identifier_prefix f = c)
      ∧ written (main fc)
        = (λ code, (on_disk (file_name code),
                    {| features :=
                         written_feature
                           <$> filter (λ f, identifier_prefix f = code)
                                 (features fc) |}))
            <$> codes.
Proof.
  intros Hw Hinj. rewrite (main_ok_prefix fc Hw Hinj).
  destruct (codes_of_group (features fc)) as (Hnd & Hin & Hsorted).
  assert (Hperm : reassemble
            {| written :=
                 (λ code, (on_disk (file_name code),
                           {| features :=
                                written_feature
                                  <$> filter (λ f, identifier_prefix f = code)
                                        (features fc) |}))
                   <$> codes_of (group (features fc));
               stderr :=
                 (λ code, (code, length (filter (λ f, identifier_prefix f = code)
                                           (features fc))))
                   <$> codes_of (group (features fc));
               thrown := false |}
          ≡ₚ written_feature <$> features fc).
  { unfold reassemble. cbn [written]. rewrite <-list_fmap_compose.
    rewrite (list_fmap_ext _
               (λ k, written_feature
                       <$> filter (λ g, state_of g = k) (features fc))
               (codes_of (group (features fc))))
      by (intros i code _; cbn; by rewrite filter_prefix).
    rewrite mjoin_fmap_fmap. apply fmap_Permutation.
    apply (join_classes_Permutation _ _ Hnd).
    intros g Hg. apply Hin. eauto. }
  split_and!.
  - done.
  - exact Hperm.
  - intros Hid. rewrite Hperm. by rewrite (fmap_fixed _ _ Hid).
  - exists (codes_of (group (features fc))). split_and!; [done| |done].
    intros c. rewrite Hin. by setoid_rewrite state_of_prefix.
Qed.

(** The theorem at a collection of two features, one with the prefix 01 and
    one without identifier. *)
Lemma splitter_reassemble_permutation_witness :
  thrown (main split_example) = false
  ∧ reassemble (main split_example)
    ≡ₚ written_feature <$> features split_example
  ∧ ((∀ f, f ∈ features split_example → written_feature f = f) →
     reassemble (main split_example) ≡ₚ features split_example)
  ∧ ∃ codes : list jsstring,
      Sorted (λ a b, str_ltb a b = true) codes
      ∧ (∀ c, c ∈ codes
              ↔ ∃ f, f ∈ features split_example ∧ identifier_prefix f = c)
      ∧ written (main split_example)
        = (λ code, (on_disk (file_name code),
                    {| features :=
                         written_feature
                           <$> filter (λ f, identifier_prefix f = code)
                                 (features split_example) |}))
            <$> codes.
Proof.
  apply (splitter_reassemble_permutation split_example).
  - intros f Hf. simpl in Hf.
    rewrite !elem_of_cons, elem_of_nil in Hf.
    destruct Hf as [->|[->|[]]]; reflexivity.
  - intros f g Hf Hg. simpl in Hf, Hg.
    rewrite !elem_of_cons, elem_of_nil in Hf, Hg.
    destruct Hf as [->|[->|[]]], Hg as [->|[->|[]]];
      vm_compute; intros H; (reflexivity || discriminate H).
Defined.

(** The empty string sorts before every other code. *)
Lemma sorted_empty_first (l : list jsstring) :
  Sorted (λ a b, str_ltb a b = true) l → [] ∈ l → ∃ rest, l = [] :: rest.
Proof.
  induction 1 as [|a l Hl IH Hhd]; intros Hin.
  - by apply elem_of_nil in Hin.
  - destruct a as [|x a]; [eauto|]. exfalso.
    apply elem_of_cons in Hin as [?|Hin]; [done|].
    destruct (IH Hin) as [rest ->].
    inversion Hhd as [|? ? Hlt]; subst. by simpl in Hlt.
Qed.

(** The file of the empty key is written whenever a feature has that key:
    it is the first to be written, its name can be, and the name of no
    other code is the same on disk. *)
Lemma main_empty_key (fc : FeatureCollection) (k : jsstring) :
  k = [] →
  (∃ f, f ∈ features fc ∧ state_of f = k) →
  (on_disk (file_name k),
   {| features :=
        written_feature <$> filter (λ f, state_of f = k) (features fc) |})
    ∈ written (main fc).
Proof.
  intros Hk Hex.
  destruct (codes_of_group (features fc)) as (Hnd & Hin & Hsorted).
  destruct (group_grouped (features fc)) as (_ & _ & Hget).
  destruct (sorted_empty_first _ Hsorted) as [rest Hcodes].
  { rewrite <-Hk. by apply Hin. }
  unfold main. cbv zeta. rewrite Hcodes in Hnd |- *.
  apply NoDup_cons in Hnd as [Hnot _].
  cbn [foldl]. rewrite write_step_written by reflexivity.
  apply written_foldl_keeps.
  - cbn [written]. rewrite Hget, Hk. apply list_elem_of_here.
  - intros c Hc Heq. cbn [fst] in Heq. rewrite Hk in Heq.
    apply Hnot. by rewrite <-(on_disk_file_name_empty c Heq).
Qed.

(** The claim C10 as stated fails: of the two features above, the one
    without identifier is written to [de-.geojson], and the write for the
    prefix with the slash throws, so that its feature is in no file. *)
Lemma splitter_slash_key_dropped :
  ¬ (∀ (fc : FeatureCollection) (f : Feature),
       f ∈ features fc →
       ∃ w, w ∈ written (main fc) ∧ written_feature f ∈ features w.2)
  ∧ written (main slash_and_nameless)
    = [ (lit "de-.geojson",
         {| features := [ {| properties := None; geometry := JNull |} ] |}) ]
  ∧ thrown (main slash_and_nameless) = true.
Proof.
  assert (Hwr : written (main slash_and_nameless)
                = [ (lit "de-.geojson",
                     {| features := [ {| properties := None;
                                         geometry := JNull |} ] |}) ])
    by reflexivity.
  split_and!; [|exact Hwr|reflexivity].
  intros H. destruct (H slash_and_nameless slash_feature) as (w & Hw & Hf).
  { apply list_elem_of_here. }
  rewrite Hwr in Hw. apply list_elem_of_singleton in Hw. subst w.
  cbn [snd features] in Hf. apply list_elem_of_singleton in Hf.
  discriminate Hf.
Qed.

(** C10, amended. Every input feature is assigned to exactly one
    partition, the one of its identifier prefix. A feature with neither
    [ags] nor [id] has the empty prefix and is written to [de-.geojson],
    whatever the other features are. When every prefix can be written as
    part of a file name and no two prefixes give the same name on disk,
    every feature is written, as [JSON.stringify] writes it, to exactly one
    file, the one named after its prefix. *)
Theorem splitter_every_feature_written (fc : FeatureCollection) (f : Feature) :
  f ∈ features fc →
  (∀ k, f ∈ get (group (features fc)) k ↔ k = identifier_prefix f)
  ∧ (truthy (properties f ≫= ags) = false →
     truthy (properties f ≫= id) = false →
     identifier_prefix f = []
     ∧ file_name [] = lit "de-.geojson"
     ∧ ∃ w, w ∈ written (main fc) ∧ w.1 = lit "de-.geojson"
            ∧ written_feature f ∈ features w.2)
  ∧ ((∀ g, g ∈ features fc →
           writable (file_name (identifier_prefix g)) = true) →
     (∀ g h, g ∈ features fc → h ∈ features fc →
             on_disk (file_name (identifier_prefix g))
             = on_disk (file_name (identifier_prefix h)) →
             identifier_prefix g = identifier_prefix h) →
     (∃ w, w ∈ written (main fc)
           ∧ w.1 = on_disk (file_name (identifier_prefix f))
           ∧ written_feature f ∈ features w.2)
     ∧ (∀ w, w ∈ written (main fc) → written_feature f ∈ features w.2 →
             w.1 = on_disk (file_name (identifier_prefix f)))
     ∧ NoDup (written (main fc)).*1).
Proof.
  intros Hf.
  destruct (codes_of_group (features fc)) as (Hnd & Hin & _).
  destruct (group_grouped (features fc)) as (_ & _ & Hget).
  split_and!.
  - intros k. rewrite Hget, list_elem_of_filter, state_of_prefix.
    split; [by intros [<- _]|by intros ->].
  - intros Hags Hid.
    assert (Hempty : state_of f = []).
    { unfold state_of, ags_of, or_else. by rewrite Hags, Hid. }
    split_and!; [by rewrite <-state_of_prefix|done|].
    eexists. split; [apply (main_empty_key fc [] eq_refl); eauto|].
    split; [done|]. cbn [snd features].
    apply list_elem_of_fmap_2. by apply list_elem_of_filter.
  - intros Hw Hinj. rewrite (main_ok_prefix fc Hw Hinj). cbn [written].
    split_and!.
    + eexists (_, _). split; [|split; [done|]].
      * apply list_elem_of_fmap. exists (identifier_prefix f). split; [done|].
        apply Hin. exists f. by rewrite state_of_prefix.
      * cbn [snd features].
        apply list_elem_of_fmap_2. by apply list_elem_of_filter.
    + intros w (code & -> & _)%list_elem_of_fmap. cbn [fst snd features].
      intros (g & Heq & [<- _]%list_elem_of_filter)%list_elem_of_fmap.
      apply (f_equal state_of) in Heq.
      rewrite !state_of_written, !state_of_prefix in Heq. by rewrite Heq.
    + rewrite <-list_fmap_compose. apply NoDup_fmap_2_strong; [|done].
      intros c1 c2 (g & Hg & <-)%Hin (h & Hh & <-)%Hin. cbn.
      rewrite !state_of_prefix. by apply Hinj.
Qed.

(** The theorem at a collection of one feature that has no properties. *)
Lemma splitter_every_feature_written_witness :
  let f := {| properties := None; geometry := JNull |} in
  let fc := {| features := [f] |} in
  (∀ k, f ∈ get (group (features fc)) k ↔ k = identifier_prefix f)
  ∧ (truthy (properties f ≫= ags) = false →
     truthy (properties f ≫= id) = false →
     identifier_prefix f = []
     ∧ file_name [] = lit "de-.geojson"
     ∧ ∃ w, w ∈ written (main fc) ∧ w.1 = lit "de-.geojson"
            ∧ written_feature f ∈ features w.2)
  ∧ ((∀ g, g ∈ features fc →
           writable (file_name (identifier_prefix g)) = true) →
     (∀ g h, g ∈ features fc → h ∈ features fc →
             on_disk (file_name (identifier_prefix g))
             = on_disk (file_name (identifier_prefix h)) →
             identifier_prefix g = identifier_prefix h) →
     (∃ w, w ∈ written (main fc)
           ∧ w.1 = on_disk (file_name (identifier_prefix f))
           ∧ written_feature f ∈ features w.2)
     ∧ (∀ w, w ∈ written (main fc) → written_feature f ∈ features w.2 →
             w.1 = on_disk (file_name (identifier_prefix f)))
     ∧ NoDup (written (main fc)).*1).
Proof.
  apply (splitter_every_feature_written
           {| features := [ {| properties := None; geometry := JNull |} ] |}
           {| properties := None; geometry := JNull |}).
  simpl. apply list_elem_of_here.
Defined.
End SplitterClaims.

(** ** The producer *)

Section ProducerClaims.
Import Producer.
Variable Number : jsstring → float.

Lemma foldl_gem_step (m : gmap jsstring Kreis) (l : list RawFeature)
    (out : list OutFeature) :
  foldl (gem_step Number m) out l = out ++ (emit Number m <$> l).
Proof.
  revert out. induction l as [|f l IH]; intros out; simpl.
  - by rewrite app_nil_r.
  - rewrite IH. unfold gem_step. by rewrite <-(assoc_L (++)).
Qed.

(** The loop emits one feature per municipality, in input order. *)
Lemma build_emit (gem krs : list RawFeature) :
  build Number gem krs = emit Number (build_krsBy5 krs) <$> gem.
Proof. unfold build. by rewrite foldl_gem_step. Qed.

Lemma density_of_stored (pop area : option float) :
  density_of pop area
  = match finite_or_null pop, finite_or_null area with
    | Some n, Some a => if positive a then Some (n / a)%float else None
    | _, _ => None
    end.
Proof.
  unfold density_of, finite_or_null, finite.
  destruct pop as [n|], area as [a|]; simpl; try done.
  - by destruct (isFinite n), (isFinite a).
  - by destruct (isFinite n).
Qed.

Lemma strip_commas_without (s : jsstring) :
  strip_commas s = without_commas s.
Proof.
  unfold strip_commas, jsstring in *. induction s as [|c s IH]; [done|].
  rewrite filter_cons. cbn [without_commas]. rewrite IH.
  destruct (N.eqb_spec c 44) as [->|Hne].
  - by rewrite decide_False by (intros H; by apply H).
  - by rewrite decide_True.
Qed.

Lemma stored_parsed (f : RawFeature) (get : RawProps → option json) :
  get no_props = None →
  finite_or_null (parse_field Number (get (props_of f)))
  = parsed Number (r_properties f ≫= get).
Proof.
  intros Hnone. unfold props_of, finite_or_null, finite, parse_field, parsed.
  destruct (r_properties f) as [p|]; simpl; [|by rewrite Hnone].
  destruct (get p) as [[| |x|s| |]|]; try done.
  - destruct (isFinite x) eqn:Hx; simpl; by rewrite ?Hx.
  - by rewrite strip_commas_without.
Qed.

Lemma parsed_finite (v : option json) (n : float) :
  parsed Number v = Some n → PrimFloat.is_finite n = true.
Proof.
  unfold parsed, isFinite. destruct v as [[| |x|t| |]|]; try done.
  - destruct (PrimFloat.is_finite x) eqn:Hx; [|done]. by intros [= <-].
  - destruct (PrimFloat.is_finite (Number (without_commas t))) eqn:Hx; [|done].
    by intros [= <-].
Qed.

(** A zero, of either sign, over a positive number is written as [0]. *)
Lemma zero_quotient (n a : float) :
  PrimFloat.eqb n 0 = true → positive a = true →
  written_number (n / a) = Some 0%float.
Proof.
  unfold positive. rewrite FloatAxioms.eqb_spec, FloatAxioms.ltb_spec.
  change (Prim2SF 0) with (S754_zero false). intros Hn Ha.
  assert (Hq : ∃ sq, Prim2SF (n / a) = S754_zero sq).
  { rewrite FloatAxioms.div_spec.
    destruct (Prim2SF n) as [sn|sn| |sn mn en];
      try done; try (by destruct sn).
    destruct (Prim2SF a) as [sa|sa| |sa ma ea]; try done;
      unfold SF64div, SFdiv; by eexists. }
  destruct Hq as [sq Hq].
  unfold written_number, PrimFloat.is_finite, PrimFloat.is_nan,
    PrimFloat.is_infinity.
  rewrite !FloatAxioms.eqb_spec, FloatAxioms.abs_spec, Hq.
  by destruct sq.
Qed.

Lemma positive_nonzero (a : float) :
  positive a = true → PrimFloat.eqb a 0 = false.
Proof.
  unfold positive. rewrite FloatAxioms.eqb_spec, FloatAxioms.ltb_spec.
  change (Prim2SF 0) with (S754_zero false).
  destruct (Prim2SF a) as [sa|sa| |sa ma ea]; try done; by destruct sa.
Qed.

(** C5, amended. For every municipality of the written file, the stored
    [pop] and [area_km2] are the parsed fields of the municipality at the
    same place of the input (a finite number as it is, a string through
    [Number] after its commas are taken out, anything else and every
    result that is not finite absent), as [JSON.stringify] writes them, and
    the stored [density] is [pop / area_km2], as it is written, when both
    are stored and the area is positive, and absent otherwise: a quotient
    that is not finite is written as [null], so that the density is then
    absent. *)
Theorem producer_density (gem krs : list RawFeature) :
  Forall2 (λ (f : RawFeature) (g : OutFeature),
    pop (properties g)
      = parsed Number (r_properties f ≫= r_ewz) ≫= written_number
    ∧ area_km2 (properties g)
      = parsed Number (r_properties f ≫= r_kfl) ≫= written_number
    ∧ density (properties g)
      = match pop (properties g), area_km2 (properties g) with
        | Some n, Some a =>
            if positive a then written_number (n / a) else None
        | _, _ => None
        end)
    gem (ProducerIO.stringify (build Number gem krs)).
Proof.
  rewrite build_emit. unfold ProducerIO.stringify. rewrite <-list_fmap_compose.
  apply Forall2_fmap_r, Forall_Forall2_diag, Forall_forall.
  intros f _.
  cbn [compose ProducerIO.stringify_feature emit properties pop area_km2 density].
  rewrite density_of_stored, !stored_parsed by done.
  unfold ProducerIO.json_number. split_and!; [done..|].
  destruct (parsed Number (r_properties f ≫= r_ewz)) as [n|] eqn:Hn; [|done].
  destruct (parsed Number (r_properties f ≫= r_kfl)) as [a|] eqn:Ha;
    cbn [mbind option_bind].
  - apply parsed_finite in Hn, Ha.
    unfold written_number at 2 3. rewrite Hn, Ha.
    destruct (positive a) eqn:Hpos.
    + rewrite (positive_nonzero a Hpos), Hpos. cbn [mbind option_bind].
      destruct (PrimFloat.eqb n 0) eqn:Hzero; [|done].
      by rewrite (zero_quotient n a Hzero Hpos),
                 (zero_quotient 0 a eq_refl Hpos).
    + cbn [mbind option_bind].
      destruct (PrimFloat.eqb a 0); [done|]. by rewrite Hpos.
  - by destruct (written_number n).
Qed.

(** C9. A municipality whose five-character county key is not in the
    county lookup is emitted all the same, at its place in the output, with
    [county] undefined; the output has one feature per municipality. *)
Theorem producer_unknown_county (gem krs : list RawFeature) (i : nat)
    (f : RawFeature) :
  gem !! i = Some f →
  build_krsBy5 krs !! ars5_of f = None →
  length (build Number gem krs) = length gem
  ∧ ∃ g, build Number gem krs !! i = Some g
         ∧ county (properties g) = None
         ∧ geometry g = r_geometry f.
Proof.
  intros Hi Hnone. rewrite build_emit. split; [by rewrite length_fmap|].
  exists (emit Number (build_krsBy5 krs) f). split_and!.
  - by rewrite list_lookup_fmap, Hi.
  - simpl. by rewrite Hnone.
  - done.
Qed.
End ProducerClaims.

(** The theorem at one municipality without properties and no county at
    all, whatever [Number] is. *)
Lemma producer_unknown_county_witness :
  let f := {| Producer.r_properties := None; Producer.r_geometry := JNull |} in
  length (Producer.build (λ _, nan) [f] []) = length [f]
  ∧ ∃ g, Producer.build (λ _, nan) [f] [] !! 0%nat = Some g
         ∧ Producer.county (Producer.properties g) = None
         ∧ Producer.geometry g = Producer.r_geometry f.
Proof.
  apply (producer_unknown_county (λ _, nan)
           [ {| Producer.r_properties := None; Producer.r_geometry := JNull |} ]
           [] 0%nat
           {| Producer.r_properties := None; Producer.r_geometry := JNull |}).
  - reflexivity.
  - reflexivity.
Defined.

(** The claim C5 as stated fails on the written file: the municipality
    above has a population and a positive area, both stored, and its
    density, infinite in the object the loop pushes, is absent in the
    file. *)
Lemma producer_density_overflow :
  ¬ (∀ (Number : jsstring → float) (gem krs : list Producer.RawFeature),
       Forall (λ g,
                 match Producer.pop (Producer.properties g),
                       Producer.area_km2 (Producer.properties g) with
                 | Some n, Some a =>
                     positive a = true →
                     Producer.density (Producer.properties g)
                     = Some (n / a)%float
                 | _, _ => True
                 end)
         (ProducerIO.stringify (Producer.build Number gem krs)))
  ∧ (Producer.density ∘ Producer.properties)
      <$> Producer.build (λ _, nan) [overflow_feature] []
    = [Some infinity]
  ∧ (Producer.density ∘ Producer.properties)
      <$> ProducerIO.stringify (Producer.build (λ _, nan) [overflow_feature] [])
    = [None].
Proof.
  split_and!; [|reflexivity..].
  intros H. specialize (H (λ _, nan) [overflow_feature] []).
  apply Forall_cons in H as [H _]. vm_compute in H.
  specialize (H eq_refl). discriminate H.
Qed.

(** The theorem's parsing at a population written with grouping commas:
    if [Number] reads 1234567 in the digits, that is the stored
    population, and the density is its quotient by the area. *)
Lemma producer_parses_grouped (Number : jsstring → float) :
  Number (lit "1234567") = 1234567%float →
  (λ g, (Producer.pop (Producer.properties g),
         Producer.area_km2 (Producer.properties g),
         Producer.density (Producer.properties g)))
    <$> ProducerIO.stringify (Producer.build Number [grouped_feature] [])
  = [(Some 1234567%float, Some 310.5%float,
      Some (1234567 / 310.5)%float)].
Proof.
  intros HN. unfold Producer.build. cbn [foldl Producer.gem_step app].
  unfold ProducerIO.stringify. cbn [fmap list_fmap].
  unfold Producer.emit, ProducerIO.stringify_feature.
  cbn [Producer.properties Producer.pop Producer.area_km2 Producer.density].
  change (Producer.parse_field Number
            (Producer.r_ewz (Producer.props_of grouped_feature)))
    with (Some (Number (lit "1234567"))).
  rewrite HN. reflexivity.
Qed.

(** ** Colours *)

Lemma COLORS_distinct :
  NoDup Leaflet.COLORS ∧ length Leaflet.COLORS = 10%nat
  ∧ Leaflet.gray ∉ Leaflet.COLORS.
Proof.
  split_and!.
  - compute_done.
  - done.
  - compute_done.
Qed.

(** The Leaflet variant: [colorForPop] picks the colour of the band for a
    known population that is not negative, and gray otherwise; gray is none
    of the ten colours. *)
Theorem colorForPop_bands (pop : option Z) :
  Leaflet.colorForPop pop
  = match pop with
    | Some p => if (p <? 0)%Z then Leaflet.gray else Leaflet.color (band p)
    | None => Leaflet.gray
    end
  ∧ (Leaflet.gray ∉ Leaflet.COLORS)
  ∧ Leaflet.colorForPop (Some 5000%Z) = Leaflet.color 0
  ∧ Leaflet.colorForPop (Some 5001%Z) = Leaflet.color 1.
Proof.
  split_and!; [|apply COLORS_distinct|done..].
  destruct pop as [p|]; [|done].
  unfold Leaflet.colorForPop, band, breakpoints. simpl.
  destruct (Z.ltb_spec p 0); [done|].
  rewrite !filter_cons, filter_nil.
  repeat match goal with
  | |- context [(p <=? ?b)%Z] => destruct (Z.leb_spec p b)
  end;
  repeat match goal with
  | |- context [decide (?b < p)%Z] =>
      destruct (decide (b < p)%Z); [try (exfalso; lia)|try (exfalso; lia)]
  end; reflexivity.
Qed.

(** C2, the MapLibre variant. The [step] expression gives a population of
    exactly 5000 the second colour, where [colorForPop] and the legend give
    the first; for an unknown population it yields no colour, and gray is
    none of its outputs. *)
Theorem colorExpr_boundary_and_unknown :
  MapLibre.eval_step MapLibre.colorExpr (Some 5000%Z) = Some (Leaflet.color 1)
  ∧ Leaflet.colorForPop (Some 5000%Z) = Leaflet.color 0
  ∧ MapLibre.eval_step MapLibre.colorExpr (Some (-3)%Z) = Some (Leaflet.color 0)
  ∧ MapLibre.eval_step MapLibre.colorExpr None = None
  ∧ Leaflet.gray ≠ MapLibre.first_output MapLibre.colorExpr
  ∧ Leaflet.gray ∉ (MapLibre.stops MapLibre.colorExpr).*2.
Proof.
  split_and!; try reflexivity.
  - compute_done.
  - compute_done.
Qed.

(** ** The Leaflet application: the heap under [combined] *)

Section LeafletHeap.
Import Leaflet.

(** A turn of the loop leaves a property object alone, or fills in the
    density it lacked. *)
Lemma recompute_lookup (h : Heap) (f : GFeat) (l : loc) :
  recompute h f !! l = h !! l
  ∨ ∃ p n a,
      h !! l = Some p ∧ l = properties f ∧ density p = None
      ∧ pop p = Some n ∧ area_km2 p = Some a
      ∧ isFinite a = true ∧ positive a = true
      ∧ recompute h f !! l
        = Some (with_density p (Some (float_of_Z n / a)%float)).
Proof.
  unfold recompute.
  destruct (h !! properties f) as [p|] eqn:Hp.
  - rewrite (list_lookup_total_correct _ _ _ Hp).
    destruct (density p) eqn:Hd; [by left|].
    destruct (pop p) as [n|] eqn:Hn; [|by left].
    destruct (area_km2 p) as [a|] eqn:Ha; [|by left].
    destruct (isFinite a) eqn:Hfin; [|by left].
    destruct (positive a) eqn:Hpos; [|by left]. simpl.
    destruct (decide (l = properties f)) as [->|Hne].
    + right. exists p, n, a. split_and!; try done.
      apply list_lookup_insert_eq. by eapply lookup_lt_Some.
    + left. by apply list_lookup_insert_ne.
  - left. apply lookup_ge_None in Hp.
    repeat case_match; try done. by rewrite list_insert_ge.
Qed.

Lemma foldl_recompute_lookup (arr : list GFeat) (h : Heap) (l : loc) :
  foldl recompute h arr !! l = h !! l
  ∨ ∃ p n a,
      h !! l = Some p ∧ l ∈ properties <$> arr ∧ density p = None
      ∧ pop p = Some n ∧ area_km2 p = Some a
      ∧ isFinite a = true ∧ positive a = true
      ∧ foldl recompute h arr !! l
        = Some (with_density p (Some (float_of_Z n / a)%float)).
Proof.
  revert h. induction arr as [|f arr IH]; intros h; simpl; [by left|].
  destruct (IH (recompute h f))
    as [Hsame|(p' & n' & a' & Hp' & Hin & Hd' & Hn' & Ha' & Hf' & Hpos' & Hl')],
    (recompute_lookup h f l) as [Hstep|(p & n & a & Hp & -> & Hd & Hn & Ha & Hf & Hpos & Hl)].
  - left. congruence.
  - right. exists p, n, a. split_and!; try done.
    + simpl. by left.
    + congruence.
  - right. exists p', n', a'. split_and!; try done.
    + congruence.
    + simpl. by right.
  - rewrite Hl in Hp'. by simplify_eq.
Qed.

(** The loop changes no population, and the length of the heap stays. *)
Lemma foldl_recompute_pop (arr : list GFeat) (h : Heap) (l : loc) :
  pop (foldl recompute h arr !!! l) = pop (h !!! l).
Proof.
  rewrite !list_lookup_total_alt.
  destruct (foldl_recompute_lookup arr h l)
    as [Hsame|(p & n & a & Hp & _ & _ & _ & _ & _ & _ & Hl)].
  - by rewrite Hsame.
  - by rewrite Hl, Hp.
Qed.

Lemma recompute_length (h : Heap) (f : GFeat) : length (recompute h f) = length h.
Proof. unfold recompute. repeat case_match; by rewrite ?length_insert. Qed.

Lemma foldl_recompute_length (arr : list GFeat) (h : Heap) :
  length (foldl recompute h arr) = length h.
Proof.
  revert h. induction arr as [|f arr IH]; intros h; simpl; [done|].
  by rewrite IH, recompute_length.
Qed.
End LeafletHeap.

(** ** The Leaflet application: ranking *)

Lemma sort_ext {A : Type} (lt lt' : A → A → bool) (l : list A) :
  (∀ a b, lt a b = lt' a b) → sort lt l = sort lt' l.
Proof.
  intros Hext. induction l as [|x l IH]; simpl; [done|]. rewrite IH.
  generalize (sort lt' l). intros s.
  induction s as [|y s IHs]; simpl; [done|]. by rewrite Hext, IHs.
Qed.

Lemma Sorted_weaken {A : Type} (R R' : A → A → Prop) (l : list A) :
  (∀ a b, R a b → R' a b) → Sorted R l → Sorted R' l.
Proof.
  intros HR. induction 1 as [|a l Hl IH Hhd]; constructor; [done|].
  destruct Hhd; constructor; auto.
Qed.

Section LeafletRanks.
Import Leaflet.

Lemma before_lt (pa pb : FProps) :
  before pa pb = true ↔ (pop_or_m1 pb < pop_or_m1 pa)%Z.
Proof. unfold before. rewrite Z.ltb_lt. lia. Qed.

Lemma before_asym (pa pb : FProps) : before pa pb = true → before pb pa = false.
Proof.
  rewrite before_lt. intros H. apply not_true_is_false.
  rewrite before_lt. lia.
Qed.

Lemma assign_ranks_app_known (h : Heap) (K U : list GFeat) (r : nat) :
  Forall (λ f, is_Some (pop (h !!! properties f))) K →
  assign_ranks h r (K ++ U)
  = imap (λ i f, ranked h f (Some (r + i)%nat)) K
    ++ assign_ranks h (r + length K)%nat U.
Proof.
  revert r. induction K as [|f K IH]; intros r HK; simpl.
  - by rewrite Nat.add_0_r.
  - apply Forall_cons in HK as [[n Hn] HK]. rewrite Hn.
    rewrite (IH _ HK). rewrite Nat.add_0_r.
    f_equal. f_equal.
    + apply imap_ext. intros i g _. simpl. f_equal. f_equal. lia.
    + f_equal. lia.
Qed.

Lemma assign_ranks_unknown (h : Heap) (U : list GFeat) (r : nat) :
  Forall (λ f, pop (h !!! properties f) = None) U →
  assign_ranks h r U = (λ f, ranked h f None) <$> U.
Proof.
  induction 1 as [|f U Hf _ IH]; simpl; [done|]. by rewrite Hf, IH.
Qed.

(** In a list sorted by population descending where no known population
    is negative, the features of known population come first. *)
Lemma sorted_known_first (h : Heap) (l : list GFeat) :
  StronglySorted (λ f g, (pop_or_m1 (h !!! properties g)
                          ≤ pop_or_m1 (h !!! properties f))%Z) l →
  Forall (λ f, ∀ n, pop (h !!! properties f) = Some n → (0 ≤ n)%Z) l →
  l = filter (λ f, is_Some (pop (h !!! properties f))) l
      ++ filter (λ f, pop (h !!! properties f) = None) l.
Proof.
  induction 1 as [|f l Hl IH Hhd]; intros Hpos; [done|].
  apply Forall_cons in Hpos as [Hf Hpos]. specialize (IH Hpos).
  destruct (pop (h !!! properties f)) as [n|] eqn:Hn.
  - rewrite filter_cons_True by eauto.
    rewrite filter_cons_False by (rewrite Hn; done).
    simpl. by rewrite <-IH.
  - rewrite filter_cons_False by (rewrite Hn; by intros []).
    rewrite filter_cons_True by done.
    assert (Hall : Forall (λ g, pop (h !!! properties g) = None) l).
    { rewrite Forall_forall in Hhd, Hpos |- *. intros g Hg.
      specialize (Hhd g Hg). specialize (Hpos g Hg).
      unfold pop_or_m1 in Hhd. rewrite Hn in Hhd. simpl in Hhd.
      destruct (pop (h !!! properties g)) as [k|]; [|done].
      specialize (Hpos k eq_refl). simpl in Hhd. lia. }
    assert (filter (λ g, is_Some (pop (h !!! properties g))) l = []) as ->.
    { clear -Hall. induction Hall as [|g l Hg _ IH]; [done|].
      rewrite filter_cons_False; [done|]. rewrite Hg. by intros []. }
    assert (filter (λ g, pop (h !!! properties g) = None) l = l) as ->; [|done].
    clear -Hall. induction Hall as [|g l Hg _ IH]; [done|].
    by rewrite filter_cons_True, IH.
Qed.

Lemma sorted_by_pop (h : Heap) (l : list GFeat) :
  StronglySorted (λ f g, (pop_or_m1 (h !!! properties g)
                          ≤ pop_or_m1 (h !!! properties f))%Z)
    (sort (λ a b, before (h !!! properties a) (h !!! properties b)) l).
Proof.
  apply Sorted_StronglySorted.
  { intros a b c. lia. }
  eapply Sorted_weaken; [|apply sort_Sorted].
  - intros a b Hab. unfold not_after in Hab.
    apply not_true_iff_false in Hab. rewrite before_lt in Hab. lia.
  - intros a b. apply before_asym.
Qed.
End LeafletRanks.

Section LeafletCombined.
Import Leaflet.

Lemma combined_sorted (s : State) :
  (combined s).2
  = assign_ranks (combined s).1 1
      (sort (λ a b, before (heap s !!! properties a) (heap s !!! properties b))
         (arr_of s)).
Proof.
  unfold combined; simpl. f_equal. apply sort_ext. intros a b.
  unfold before, pop_or_m1. by rewrite !foldl_recompute_pop.
Qed.

(** The Leaflet variant ranks as the specification says: the merged
    sequence is sorted by population descending, features of unknown
    population last and equal populations in input order, and the features
    of known population get the ranks 1, 2, ... in that order while the
    others get none. Populations are not negative (data model). *)
Theorem leaflet_combined_ranks (s : State) :
  Forall (λ f, ∀ n, pop (heap s !!! properties f) = Some n → (0 ≤ n)%Z) (arr_of s) →
  ∃ known unknown : list GFeat,
    known ++ unknown ≡ₚ arr_of s
    ∧ (∀ n, filter (λ f, pop (heap s !!! properties f) = n) (known ++ unknown)
            = filter (λ f, pop (heap s !!! properties f) = n) (arr_of s))
    ∧ Forall (λ f, is_Some (pop (heap s !!! properties f))) known
    ∧ Forall (λ f, pop (heap s !!! properties f) = None) unknown
    ∧ StronglySorted (λ f g, (pop_or_m1 (heap s !!! properties g)
                              ≤ pop_or_m1 (heap s !!! properties f))%Z) known
    ∧ (combined s).2
      = imap (λ i f, ranked (combined s).1 f (Some (S i))) known
        ++ ((λ f, ranked (combined s).1 f None) <$> unknown).
Proof.
  intros Hpos.
  set (sorted := sort (λ a b, before (heap s !!! properties a)
                                (heap s !!! properties b)) (arr_of s)).
  pose proof (sorted_by_pop (heap s) (arr_of s)) as Hsorted. fold sorted in Hsorted.
  assert (Hpos' : Forall (λ f, ∀ n, pop (heap s !!! properties f) = Some n
                               → (0 ≤ n)%Z) sorted).
  { rewrite Forall_forall in Hpos |- *. intros f Hf. apply Hpos.
    by apply elem_of_sort in Hf. }
  pose proof (sorted_known_first (heap s) sorted Hsorted Hpos') as Hsplit.
  set (known := filter (λ f, is_Some (pop (heap s !!! properties f))) sorted) in *.
  set (unknown := filter (λ f, pop (heap s !!! properties f) = None) sorted) in *.
  assert (HK : Forall (λ f, is_Some (pop (heap s !!! properties f))) known).
  { apply Forall_forall. by intros f [? _]%list_elem_of_filter. }
  assert (HU : Forall (λ f, pop (heap s !!! properties f) = None) unknown).
  { apply Forall_forall. by intros f [? _]%list_elem_of_filter. }
  exists known, unknown. rewrite <-Hsplit. split_and!; try done.
  - apply sort_Permutation.
  - intros n. apply sort_stable. intros x y Hx Hy.
    apply not_true_is_false. rewrite before_lt. unfold pop_or_m1.
    rewrite Hx, Hy. lia.
  - rewrite Hsplit in Hsorted. by apply StronglySorted_app_1_l in Hsorted.
  - rewrite combined_sorted. fold sorted. rewrite Hsplit at 1.
    rewrite assign_ranks_app_known.
    + f_equal. apply assign_ranks_unknown.
      eapply Forall_impl; [exact HU|]. intros f Hf. simpl in *.
      unfold combined. simpl. by rewrite foldl_recompute_pop.
    + eapply Forall_impl; [exact HK|]. intros f Hf. simpl in *.
      unfold combined. simpl. by rewrite foldl_recompute_pop.
Qed.

(** The theorem at the example state. *)
Lemma leaflet_combined_ranks_witness :
  ∃ known unknown : list GFeat,
    known ++ unknown ≡ₚ arr_of example_state
    ∧ (∀ n, filter (λ f, pop (heap example_state !!! properties f) = n) (known ++ unknown)
            = filter (λ f, pop (heap example_state !!! properties f) = n) (arr_of example_state))
    ∧ Forall (λ f, is_Some (pop (heap example_state !!! properties f))) known
    ∧ Forall (λ f, pop (heap example_state !!! properties f) = None) unknown
    ∧ StronglySorted (λ f g, (pop_or_m1 (heap example_state !!! properties g)
                              ≤ pop_or_m1 (heap example_state !!! properties f))%Z) known
    ∧ (combined example_state).2
      = imap (λ i f, ranked (combined example_state).1 f (Some (S i))) known
        ++ ((λ f, ranked (combined example_state).1 f None) <$> unknown).
Proof.
  apply (leaflet_combined_ranks example_state).
  simpl. repeat constructor; intros n Hn; vm_compute in Hn; simplify_eq; lia.
Defined.

(** On the example the ranks are 1 for a, 2 for c, 3 for d and none for b:
    [1, undefined, 2, 3] in input order. *)
Lemma leaflet_ranks_example :
  (λ f, (id (App.properties f), rank (App.properties f)))
    <$> (combined example_state).2
  = [([97], Some 1%nat); ([99], Some 2%nat); ([100], Some 3%nat); ([98], None)].
Proof. reflexivity. Qed.
End LeafletCombined.

(** ** The MapLibre application: ranking *)

(** C1, the MapLibre variant. On the populations 50000, unknown, 20000,
    20000 (features a, b, c, d) its [combined] sorts ascending and ranks c
    first, d second and a third: [3, undefined, 1, 2] in input order; and a
    feature of population 0, which is known, gets no rank. *)
Theorem maplibre_ranks_example :
  (λ f, (id (properties f), rank (properties f)))
    <$> MapLibre.combined maplibre_example_state
  = [([99], Some 1%nat); ([100], Some 2%nat); ([97], Some 3%nat); ([98], None)]
  ∧ (λ f, (pop (properties f), rank (properties f)))
      <$> MapLibre.combined
            {| MapLibre.gemeinden :=
                 Some [ {| properties := example_props 101 (Some 0%Z);
                           geometry := JNull |} ];
               MapLibre.ortsteile := None; MapLibre.query := [];
               MapLibre.showGemeinden := true; MapLibre.showOrtsteile := true |}
    = [(Some 0%Z, None)].
Proof. split; reflexivity. Qed.

(** ** The search filter *)

(** C3. With München as the only municipality, the query "muenchen" finds
    nothing in either variant. In the Leaflet variant [norm] decomposes the
    umlaut and strips the diaeresis before the replacement of umlauts by
    digraphs runs, so the name normalises to "munchen", of which "muenchen"
    is no substring; the queries "munchen" and "münchen" do find it. *)
Theorem search_muenchen_finds_nothing :
  Leaflet.norm Muenchen = lit "munchen"
  ∧ Leaflet.norm (lit "muenchen") = lit "muenchen"
  ∧ Leaflet.m (lit "muenchen") Muenchen = false
  ∧ Leaflet.list_items (Leaflet.render (search_state (lit "muenchen"))).2 = []
  ∧ MapLibre.listItems (maplibre_search_state (lit "muenchen")) = []
  ∧ length (Leaflet.list_items (Leaflet.render (search_state (lit "munchen"))).2) = 1%nat
  ∧ length (Leaflet.list_items (Leaflet.render (search_state Muenchen)).2) = 1%nat.
Proof. split_and!; reflexivity. Qed.

(** A blank query filters nothing: the Leaflet list is the active
    collection (the municipalities if their switch is on, the districts
    otherwise), and the MapLibre list is all of [combined]. *)
Theorem blank_query_unfiltered (s : Leaflet.State) (t : MapLibre.State) :
  Leaflet.list_items
    (Leaflet.render (Leaflet.handle s (Leaflet.SetQuery [])).1).2
  ≡ₚ default []
       (if Leaflet.showGemeinden s
        then Leaflet.gemeindenOnly s (Leaflet.combined s).2
        else Leaflet.ortsteileOnly s (Leaflet.combined s).2)
  ∧ MapLibre.listItems (MapLibre.handle t (MapLibre.SetQuery [])).1
    = MapLibre.combined t.
Proof.
  split.
  - unfold Leaflet.render, Leaflet.listItems. simpl.
    rewrite sort_Permutation. by destruct (Leaflet.showGemeinden s).
  - unfold MapLibre.listItems. simpl.
    change (MapLibre.combined _) with (MapLibre.combined t).
    generalize (MapLibre.combined t). intros l.
    induction l as [|f l IH]; [done|].
    rewrite filter_cons_True; [by rewrite IH|].
    unfold MapLibre.matches, MapLibre.nameMatch. simpl.
    by destruct (Unicode.toLowerCase (name (properties f))).
Qed.

(** ** Loading *)

Section LeafletLoad.
Import Leaflet.

(** What a chunk contributes: the body if the response is OK and its body
    parses, the empty collection otherwise. *)
Lemma load_chunk_resolved (r : Fetched Body) :
  load_chunk r
  = Resolved match r with
             | Response true (Some b) => b
             | _ => Some []
             end.
Proof. by destruct r as [|[] []]. Qed.

Lemma all_resolved {A B : Type} (f : A → B) (l : list A) :
  all_ ((λ a, Resolved (f a)) <$> l) = Resolved (f <$> l).
Proof. induction l as [|a l IH]; csimpl; [done|]. by rewrite IH. Qed.

(** The callback after [Promise.all], on the parts the chunks of [l] gave:
    it throws when a part is [null], and concatenates the features
    otherwise. *)
Lemma flat_features_chunks (world : Request → Fetched Body)
    (l : list jsstring) :
  flat_features ((λ c, match world (Chunk c) with
                       | Response true (Some b) => b
                       | _ => Some []
                       end) <$> l)
  = if existsb (λ c, match world (Chunk c) with
                     | Response true (Some None) => true
                     | _ => false
                     end) l
    then Rejected
    else Resolved (mjoin ((λ c, match world (Chunk c) with
                                | Response true (Some (Some fc)) => fc
                                | _ => []
                                end) <$> l)).
Proof.
  induction l as [|c l IH]; [done|]. csimpl.
  destruct (world (Chunk c)) as [|[] [[fc|]|]]; simpl; try done;
    rewrite IH; by destruct (existsb _ l).
Qed.

Lemma load_gemeinden_chunks (world : Request → Fetched Body) :
  load_gemeinden world
  = settle (flat_features ((λ c, match world (Chunk c) with
                                 | Response true (Some b) => b
                                 | _ => Some []
                                 end) <$> codes)).
Proof.
  unfold load_gemeinden.
  rewrite (list_fmap_ext _ (λ c, Resolved match world (Chunk c) with
                                          | Response true (Some b) => b
                                          | _ => Some []
                                          end) codes)
    by (intros; apply load_chunk_resolved).
  by rewrite all_resolved.
Qed.

(** The Leaflet variant catches the failure of every fetch: a chunk whose
    fetch fails (network error, status not OK, or a body that is no JSON)
    contributes the empty collection while the other chunks are kept, in
    the order of the codes. What it does not catch is the callback after
    [Promise.all]: when the body of an OK chunk response is the JSON
    [null], the municipalities are not set and the rejection is unhandled.
    The chain of the districts ends in a [catch]: the setter receives the
    body whenever there is one that parses, whatever the status, [null]
    included, and is not called otherwise. *)
Theorem leaflet_load_guarded (world : Request → Fetched Body) :
  load_gemeinden world
  = (if existsb (λ c, match world (Chunk c) with
                      | Response true (Some None) => true
                      | _ => false
                      end) codes
     then {| set_to := None; unhandled := true |}
     else {| set_to :=
               Some (mjoin ((λ c, match world (Chunk c) with
                                  | Response true (Some (Some fc)) => fc
                                  | _ => []
                                  end) <$> codes));
             unhandled := false |})
  ∧ load_ortsteile world
    = {| set_to := match world Ortsteile with
                   | Response _ (Some b) => Some b
                   | _ => None
                   end;
         unhandled := false |}.
Proof.
  split.
  - rewrite load_gemeinden_chunks, flat_features_chunks.
    by destruct (existsb _ codes).
  - unfold load_ortsteile. by destruct (world Ortsteile) as [|ok []].
Qed.
End LeafletLoad.

(** C6, the MapLibre variant. Its two chains have no rejection handler:
    when the fetch of a dataset fails, by a network error or by a body that
    is no JSON, the dataset stays unset and the rejection is unhandled. *)
Theorem maplibre_load_unguarded :
  MapLibre.load (λ _, NetworkError) MapLibre.Gemeinden
  = {| set_to := None; unhandled := true |}
  ∧ MapLibre.load (λ _, Response true None) MapLibre.Ortsteile
    = {| set_to := None; unhandled := true |}
  ∧ ∀ world r,
      unhandled (MapLibre.load world r)
      = match world r with
        | Response _ (Some _) => false
        | _ => true
        end.
Proof.
  split_and!; try reflexivity.
  intros world r. unfold MapLibre.load. by destruct (world r) as [|ok []].
Qed.

(** ** The heap across a render *)

Section LeafletFrame.
Import Leaflet.

Lemma render_heap (s : State) :
  (render s).1 = foldl recompute (heap s) (arr_of s).
Proof. done. Qed.

(** The claim C8 as stated fails: a render changes the property object of
    the fetched municipality above, whose density becomes 25. *)
Lemma render_mutates_heap :
  ¬ (∀ s : State, (render s).1 = heap s)
  ∧ density <$> (render density_state).1 = [Some 25%float]
  ∧ density <$> heap density_state = [None].
Proof.
  split_and!; [|reflexivity..].
  intros H. specialize (H density_state). vm_compute in H. discriminate H.
Qed.

End LeafletFrame.

(** ** The switches *)

Section Toggles.

(** The claim C7 as stated fails in both variants: with both switches off
    the loaded district is still in the list. *)
Lemma list_ignores_district_switch :
  ¬ (∀ (s : Leaflet.State) (f : Feature),
       f ∈ Leaflet.list_items (Leaflet.render s).2 →
       (kind (properties f) = gemeinde → Leaflet.showGemeinden s = true)
       ∧ (kind (properties f) = ortsteil → Leaflet.showOrtsteile s = true))
  ∧ ¬ (∀ (t : MapLibre.State) (f : Feature),
         f ∈ MapLibre.list_items (MapLibre.render t) →
         (kind (properties f) = gemeinde → MapLibre.showGemeinden t = true)
         ∧ (kind (properties f) = ortsteil → MapLibre.showOrtsteile t = true)).
Proof.
  split.
  - intros H.
    destruct (H both_off
                {| properties := with_rank district_props (Some 1%nat);
                   geometry := JNull |}) as [_ Hfalse].
    + vm_compute. left.
    + by specialize (Hfalse eq_refl).
  - intros H.
    destruct (H maplibre_both_off
                {| properties := with_rank district_props (Some 1%nat);
                   geometry := JNull |}) as [_ Hfalse].
    + vm_compute. left.
    + by specialize (Hfalse eq_refl).
Qed.
End Toggles.


(** * Further properties of the code *)

(** ** The splitter: accounting and re-splitting *)

Section SplitterMore.
Import Splitter.

(** Every file the run leaves holds the features of one prefix, all of
    them and at least one, as [JSON.stringify] writes them, under the name
    of that prefix, whether or not the run ends by an exception. The run ends without one exactly when
    every prefix can be written as part of a file name; it has then logged
    one line per prefix, in sorted order, with the number of features of
    the prefix, these numbers add up to the number of input features, and
    no file is left only if the input has no feature. *)
Theorem splitter_accounting (fc : FeatureCollection) :
  Forall (λ w, ∃ code,
            w.1 = on_disk (file_name code)
            ∧ features w.2
              = written_feature
                  <$> filter (λ f, identifier_prefix f = code) (features fc)
            ∧ features w.2 ≠ [])
    (written (main fc))
  ∧ (thrown (main fc) = false
     ↔ ∀ f, f ∈ features fc →
            writable (file_name (identifier_prefix f)) = true)
  ∧ (thrown (main fc) = false →
     (written (main fc) = [] ↔ features fc = [])
     ∧ (∃ codes : list jsstring,
          Sorted (λ a b, str_ltb a b = true) codes
          ∧ stderr (main fc)
            = (λ code, (code, length (filter (λ f, identifier_prefix f = code)
                                        (features fc))))
                <$> codes)
     ∧ sum_list (stderr (main fc)).*2 = length (features fc)).
Proof.
  destruct (codes_of_group (features fc)) as (Hnd & Hin & Hsorted).
  destruct (group_grouped (features fc)) as (_ & _ & Hget).
  assert (Hstderr : thrown (main fc) = false →
            stderr (main fc)
            = (λ code, (code, length (filter (λ f, state_of f = code)
                                        (features fc))))
                <$> codes_of (group (features fc))).
  { intros Hend. unfold main in *. cbv zeta in *.
    rewrite stderr_foldl by done. cbn [stderr app].
    apply list_fmap_ext. intros i code _. by rewrite Hget. }
  split_and!.
  - unfold main. cbv zeta. apply written_foldl_Forall; [constructor|].
    intros c Hc _. exists c. cbn [fst snd features].
    rewrite Hget, filter_prefix. split_and!; [done..|].
    apply Hin in Hc as (g & Hg & Hstate).
    intros Hnil%fmap_nil_inv.
    exact (filter_nil_not_elem_of _ _ g Hnil Hstate Hg).
  - unfold main. cbv zeta. rewrite thrown_foldl. cbn [thrown orb]. split.
    + intros Hnone f Hf. rewrite <-state_of_prefix.
      destruct (writable (file_name (state_of f))) eqn:Hw; [done|].
      assert (Hex : existsb (λ c, negb (writable (file_name c)))
                      (codes_of (group (features fc))) = true).
      { apply existsb_exists. exists (state_of f). split.
        - apply list_elem_of_In, Hin. eauto.
        - by rewrite Hw. }
      congruence.
    + intros Hall. apply not_true_iff_false.
      intros (c & Hc & Hneg)%existsb_exists.
      apply list_elem_of_In, Hin in Hc as (f & Hf & <-).
      rewrite state_of_prefix, (Hall f Hf) in Hneg. done.
  - intros Hend. split_and!.
    + split.
      * intros Hnil.
        assert (Hcase : features fc = [] ∨ ∃ g, g ∈ features fc).
        { destruct (features fc) as [|g fs]; [by left|].
          right. exists g. by left. }
        destruct Hcase as [?|[g Hg]]; [done|].
        exfalso. revert Hnil. unfold main in *. cbv zeta in *.
        apply written_foldl_nonempty; [done|]. right.
        assert (Hc : state_of g ∈ codes_of (group (features fc))).
        { apply Hin. by exists g. }
        intros Hno. rewrite Hno in Hc. by apply elem_of_nil in Hc.
      * intros Hnil. unfold main. by rewrite Hnil.
    + exists (codes_of (group (features fc))). split; [done|].
      rewrite (Hstderr Hend). apply list_fmap_ext. intros i code _.
      by rewrite filter_prefix.
    + rewrite (Hstderr Hend), <-list_fmap_compose.
      assert (Hperm : mjoin ((λ k, filter (λ g, state_of g = k) (features fc))
                               <$> codes_of (group (features fc)))
                      ≡ₚ features fc).
      { apply join_classes_Permutation; [done|]. intros g Hg. apply Hin. eauto. }
      rewrite <-(Permutation_length Hperm), length_join, <-list_fmap_compose.
      done.
Qed.

Lemma NoDup_only {K : Type} (l : list K) (c : K) :
  NoDup l → (∀ k, k ∈ l ↔ k = c) → l = [c].
Proof.
  intros Hnd Hin. destruct l as [|a l].
  - exfalso. eapply elem_of_nil, Hin. done.
  - assert (a = c) as -> by (apply Hin; by left).
    destruct l as [|b l]; [done|].
    assert (b = c) as -> by (apply Hin; right; by left).
    apply NoDup_cons in Hnd as [Hnot _]. exfalso. apply Hnot. by left.
Qed.

(** Splitting is idempotent on its own output: a written file, split
    again, gives that one file back. *)
Theorem splitter_resplit (fc : FeatureCollection)
    (w : jsstring * FeatureCollection) :
  w ∈ written (main fc) → written (main w.2) = [w].
Proof.
  intros Hw.
  destruct (codes_of_group (features fc)) as (_ & Hin & _).
  destruct (group_grouped (features fc)) as (_ & _ & Hget).
  assert (Hall : Forall (λ w, ∃ code,
                           code ∈ codes_of (group (features fc))
                           ∧ writable (file_name code) = true
                           ∧ w = (on_disk (file_name code),
                                  {| features := written_feature <$> get (group (features fc)) code |}))
                   (written (main fc))).
  { unfold main. cbv zeta. apply written_foldl_Forall; [constructor|].
    intros c Hc Hwr. by exists c. }
  destruct (proj1 (Forall_forall _ _) Hall w Hw) as (code & Hcode & Hwr & ->).
  clear Hw Hall. rewrite Hget. cbn [snd].
  set (part := written_feature
                 <$> filter (λ f, state_of f = code) (features fc)).
  apply Hin in Hcode as (g & Hg & Hstate).
  assert (Hpart : ∀ f, f ∈ part → state_of f = code).
  { intros f (f' & -> & [? _]%list_elem_of_filter)%list_elem_of_fmap.
    by rewrite state_of_written. }
  assert (Hidem : written_feature <$> part = part).
  { unfold part. rewrite <-list_fmap_compose. apply list_fmap_ext.
    intros i f _. apply written_feature_idem. }
  assert (Hg' : written_feature g ∈ part).
  { apply list_elem_of_fmap_2. by apply list_elem_of_filter. }
  destruct (codes_of_group part) as (Hnd' & Hin' & _).
  destruct (group_grouped part) as (_ & _ & Hget').
  unfold main. cbv zeta. cbn [features].
  rewrite (NoDup_only _ code Hnd').
  - cbn [foldl]. rewrite write_step_written by done.
    cbn [written]. rewrite Hget'. unfold write_file. cbn [filter list_filter app].
    do 3 f_equal. rewrite <-Hidem at 2. f_equal.
    clear -Hpart. induction part as [|f part IH]; [done|].
    rewrite filter_cons_True by (apply Hpart; by left).
    f_equal. apply IH. intros f' Hf'. apply Hpart. by right.
  - intros k. rewrite Hin'. split.
    + intros (f & Hf & <-). by apply Hpart.
    + intros ->. eauto.
Qed.

(** The theorem at a collection of two features of different prefixes. *)
Lemma splitter_resplit_witness :
  written (main {| features :=
                     [ {| properties := Some {| ags := Some (lit "01");
                                               id := None; other := JNull |};
                          geometry := JNull |} ] |})
  = [ (file_name (lit "01"),
       {| features :=
            [ {| properties := Some {| ags := Some (lit "01");
                                      id := None; other := JNull |};
                 geometry := JNull |} ] |}) ].
Proof.
  apply (splitter_resplit
           {| features :=
                [ {| properties := Some {| ags := Some (lit "01");
                                          id := None; other := JNull |};
                     geometry := JNull |};
                  {| properties := None; geometry := JNull |} ] |}
           (file_name (lit "01"),
            {| features :=
                 [ {| properties := Some {| ags := Some (lit "01");
                                           id := None; other := JNull |};
                      geometry := JNull |} ] |})).
  vm_compute. right. left.
Defined.
End SplitterMore.

(** ** The producer: the county lookup *)

Section ProducerLookup.
Import Producer.

(** The lookup holds, under a key, the record of the last county feature
    that has the key, and nothing under a key no county feature has. *)
Lemma build_krsBy5_last (krs : list RawFeature) (k : jsstring) :
  build_krsBy5 krs !! k
  = (λ c, {| k_name := r_gen (props_of c); k_bez := r_bez (props_of c) |})
      <$> last (filter (λ c, krs_key c = k) krs).
Proof.
  unfold build_krsBy5. induction krs as [|c krs IH] using rev_ind.
  - simpl. apply lookup_empty.
  - rewrite foldl_app. simpl. unfold krs_step at 1.
    rewrite filter_app, filter_cons, filter_nil.
    destruct (decide (krs_key c = k)) as [<-|Hne].
    + rewrite lookup_insert_eq. by rewrite last_snoc.
    + rewrite lookup_insert_ne by done. by rewrite app_nil_r.
Qed.

(** A municipality is emitted without county exactly when no county feature
    has its five-character key; otherwise the county is read from the last
    county feature with that key. *)
Theorem producer_county_join (Number : jsstring → float)
    (krs : list RawFeature) (f : RawFeature) :
  (county (properties (emit Number (build_krsBy5 krs) f)) = None
   ↔ Forall (λ c, krs_key c ≠ ars5_of f) krs)
  ∧ county (properties (emit Number (build_krsBy5 krs) f))
    = county_of (props_of f)
        ((λ c, {| k_name := r_gen (props_of c); k_bez := r_bez (props_of c) |})
           <$> last (filter (λ c, krs_key c = ars5_of f) krs)).
Proof.
  simpl. rewrite build_krsBy5_last. split; [|done].
  destruct (last _) as [c|] eqn:Hlast; simpl.
  - split; [done|]. intros Hall. exfalso.
    apply last_Some_elem_of in Hlast.
    apply list_elem_of_filter in Hlast as [Hkey Hc].
    rewrite Forall_forall in Hall. by apply (Hall c).
  - split; [|done]. intros _. apply last_None in Hlast.
    apply Forall_forall. intros c Hc Hkey.
    eapply filter_nil_not_elem_of; [exact Hlast|exact Hkey|exact Hc].
Qed.
End ProducerLookup.

(** ** The producer: paging *)

Section ProducerPaging.
Import Producer ProducerIO.

Lemma fetch_loop_serves (world : PageRequest → Fetched Page) (t : Resource)
    (D : list RawFeature) (n todo i : nat) (results : list RawFeature) :
  serves world t D →
  fetch_loop world t n todo i results
  = Resolved (results ++ take (todo * n) (drop (i * n) D)).
Proof.
  intros Hserves. revert i results.
  induction todo as [|todo IH]; intros i results; simpl.
  - by rewrite take_0, app_nil_r.
  - unfold fetchPage. destruct (Hserves (i * n)%nat n) as (j & -> & _ & _ & Hfs).
    simpl. rewrite Hfs, IH, <-(assoc_L (++)). do 2 f_equal.
    rewrite <-take_take_drop, drop_drop. do 3 f_equal. lia.
Qed.

Lemma pages_of_cover (total n : nat) :
  (0 < n)%nat → (total ≤ pages_of total n * n)%nat.
Proof.
  intros Hn. unfold pages_of.
  pose proof (Nat.div_mod_eq (total + n - 1) n) as Hdiv.
  pose proof (Nat.mod_upper_bound (total + n - 1) n) as Hmod. nia.
Qed.

Lemma discoverTotal_serves (world : PageRequest → Fetched Page)
    (t : Resource) (D : list RawFeature) :
  serves world t D → discoverTotal world t = Resolved (length D).
Proof.
  intros Hserves. unfold discoverTotal, fetchPage.
  destruct (Hserves 0%nat 1%nat) as (j & -> & Htotal & Hmatched & Hfs). simpl.
  rewrite Htotal, Hfs. f_equal.
  destruct D as [|d D]; simpl; [|done].
  by destruct Hmatched as [->| ->].
Qed.

Lemma fetchAll_serves (world : PageRequest → Fetched Page)
    (t : Resource) (D : list RawFeature) (n : nat) :
  (0 < n)%nat → serves world t D →
  fetchAll world t (length D) n = Resolved D.
Proof.
  intros Hn Hserves.
  unfold fetchAll. rewrite (fetch_loop_serves world t D) by done.
  simpl. rewrite drop_0, take_ge; [done|]. by apply pages_of_cover.
Qed.

(** Against a service that pages faithfully, [discoverTotal] finds the
    size of the data set and [fetchAll], told that size, returns the whole
    data set in order, whatever the positive page size. *)
Theorem fetchAll_round_trip (world : PageRequest → Fetched Page)
    (t : Resource) (D : list RawFeature) (n : nat) :
  (0 < n)%nat →
  serves world t D →
  discoverTotal world t = Resolved (length D)
  ∧ fetchAll world t (length D) n = Resolved D.
Proof.
  intros Hn Hserves. split.
  - by apply discoverTotal_serves.
  - by apply fetchAll_serves.
Qed.

(** The theorem at the service of three municipalities, fetched in pages
    of two. *)
Lemma fetchAll_round_trip_witness :
  discoverTotal (paged_service three_raw []) GEM_TYPE
  = Resolved (length three_raw)
  ∧ fetchAll (paged_service three_raw []) GEM_TYPE (length three_raw) 2
    = Resolved three_raw.
Proof.
  apply (fetchAll_round_trip (paged_service three_raw []) GEM_TYPE three_raw 2).
  - lia.
  - intros start n. eexists. split_and!; [reflexivity|reflexivity|by left|reflexivity].
Defined.

(** Against such a service for both resources the script exits with 0 and
    writes the collection built from all municipalities and all counties,
    as [JSON.stringify] renders it. *)
Theorem producer_run_round_trip (Number : jsstring → float)
    (world : PageRequest → Fetched Page) (G K : list RawFeature) :
  serves world GEM_TYPE G →
  serves world KRS_TYPE K →
  run Number world
  = {| exit_code := 0; file := Some (stringify (build Number G K)) |}.
Proof.
  intros HG HK. unfold run, both.
  rewrite (discoverTotal_serves world GEM_TYPE G HG). simpl.
  rewrite (discoverTotal_serves world KRS_TYPE K HK). simpl.
  rewrite (fetchAll_serves world GEM_TYPE G 1000) by (done || lia). simpl.
  rewrite (fetchAll_serves world KRS_TYPE K 500) by (done || lia). done.
Qed.

(** The theorem at the service of three municipalities and no county. *)
Lemma producer_run_round_trip_witness :
  run (λ _, nan) (paged_service three_raw [])
  = {| exit_code := 0;
       file := Some (stringify (build (λ _, nan) three_raw [])) |}.
Proof.
  apply (producer_run_round_trip (λ _, nan) (paged_service three_raw [])
           three_raw []).
  - intros start n. eexists. split_and!; [reflexivity|reflexivity|by left|reflexivity].
  - intros start n. eexists. split_and!; [reflexivity|reflexivity|by left|reflexivity].
Defined.

Lemma fetch_loop_fails (world : PageRequest → Fetched Page) (t : Resource)
    (n todo i0 i : nat) (results : list RawFeature) :
  (i0 ≤ i < i0 + todo)%nat →
  (fetchPage world t (i * n) n = Rejected
   ∨ ∃ j, fetchPage world t (i * n) n = Resolved j ∧ page_features j = None) →
  fetch_loop world t n todo i0 results = Rejected.
Proof.
  intros Hi Hfail. revert i0 results Hi.
  induction todo as [|todo IH]; intros i0 results Hi; [lia|]. simpl.
  destruct (decide (i0 = i)) as [->|Hne].
  - destruct Hfail as [->|(j & -> & Hj)]; simpl; [done|]. by rewrite Hj.
  - destruct (fetchPage world t (i0 * n) n) as [j|]; simpl; [|done].
    destruct (page_features j); [|done]. apply IH. lia.
Qed.

(** [fetchAll] gives nothing when one of the pages it asks for fails or has
    no [features]: no partial result comes back. *)
Theorem fetchAll_fails (world : PageRequest → Fetched Page) (t : Resource)
    (total n i : nat) :
  (i < pages_of total n)%nat →
  (fetchPage world t (i * n) n = Rejected
   ∨ ∃ j, fetchPage world t (i * n) n = Resolved j ∧ page_features j = None) →
  fetchAll world t total n = Rejected.
Proof.
  intros Hi Hfail. unfold fetchAll.
  apply (fetch_loop_fails world t n _ 0 i); [lia|done].
Qed.

(** The theorem at a service whose second page of two is a network error. *)
Lemma fetchAll_fails_witness :
  fetchAll (λ r, if decide (startIndex r = 2%nat) then NetworkError
                 else paged_service three_raw [] r) GEM_TYPE 3 2
  = Rejected.
Proof.
  apply (fetchAll_fails _ GEM_TYPE 3 2 1).
  - vm_compute. lia.
  - left. reflexivity.
Defined.
End ProducerPaging.

(** ** The producer: the density helper *)

Section ProducerDensity.
Import Producer.

Lemma finite_not_nan (a : float) : isFinite a = true → Prim2SF a ≠ S754_nan.
Proof.
  unfold isFinite, is_finite, is_nan. rewrite FloatAxioms.eqb_spec.
  destruct (Prim2SF a); simpl; done.
Qed.

(** On a number that is not NaN, [a <= 0] is the negation of [a > 0]. *)
Lemma leb_zero_not_positive (a : float) :
  isFinite a = true → PrimFloat.leb a 0 = negb (positive a).
Proof.
  intros Hfin%finite_not_nan. unfold positive.
  rewrite FloatAxioms.leb_spec, FloatAxioms.ltb_spec.
  change (Prim2SF 0) with (S754_zero false).
  destruct (Prim2SF a) as [s|s| |s m e]; try done; by destruct s.
Qed.

(** The helper [density(pop, areaKm2)], which the script defines and never
    calls, computes what the loop computes in line for the [density] field:
    its test [areaKm2 <= 0] and the loop's [area > 0] differ only on NaN,
    which both exclude before. *)
Theorem density_helper_agrees (pop area : option float) :
  ProducerIO.density pop area = density_of pop area.
Proof.
  unfold ProducerIO.density, density_of.
  destruct pop as [p|], area as [a|]; try done.
  destruct (isFinite p); simpl; [|done].
  destruct (isFinite a) eqn:Ha; simpl; [|done].
  rewrite (leb_zero_not_positive a Ha). by destruct (positive a).
Qed.
End ProducerDensity.

(** ** The Leaflet application: density colours *)

Section LeafletDensityColour.
Import Leaflet LeafletView.

(** [colorForDensity] gives gray exactly for an unknown or a negative
    density, and one of the ten colours for every other value. *)
Theorem colorForDensity_gray (d : option float) :
  (colorForDensity d = gray
   ↔ match d with
     | Some v => PrimFloat.ltb v 0 = true
     | None => True
     end)
  ∧ colorForDensity d ∈ gray :: COLORS.
Proof.
  unfold colorForDensity. destruct d as [v|]; simpl.
  - destruct (PrimFloat.ltb v 0); [split; [done|by left]|].
    repeat match goal with
    | |- context [PrimFloat.leb v ?b] => destruct (PrimFloat.leb v b)
    end;
    (split; [split; [intros H; vm_compute in H; discriminate H|done]
            |right; vm_compute; repeat first [by left|right]]).
  - split; [done|by left].
Qed.
End LeafletDensityColour.

(** ** The Leaflet application: what the density loop leaves *)

Section LeafletDensity.
Import Leaflet.

Lemma foldl_recompute_keeps (arr : list GFeat) (h : Heap) (l : loc) (p : FProps) :
  h !! l = Some p → density p ≠ None →
  foldl recompute h arr !! l = Some p.
Proof.
  intros Hp Hd.
  destruct (foldl_recompute_lookup arr h l)
    as [->|(p' & n & a & Hp' & _ & Hd' & _)]; [done|].
  congruence.
Qed.

Lemma recompute_fills (h : Heap) (f : GFeat) (p : FProps) (n : Z) (a : float) :
  h !! properties f = Some p → density p = None →
  pop p = Some n → area_km2 p = Some a →
  isFinite a = true → positive a = true →
  recompute h f !! properties f
  = Some (with_density p (Some (float_of_Z n / a)%float)).
Proof.
  intros Hp Hd Hn Ha Hfin Hpos. unfold recompute.
  rewrite (list_lookup_total_correct _ _ _ Hp), Hd, Hn, Ha, Hfin, Hpos. simpl.
  apply list_lookup_insert_eq. by eapply lookup_lt_Some.
Qed.

Lemma foldl_recompute_fills (arr : list GFeat) (h : Heap) (l : loc)
    (p : FProps) (n : Z) (a : float) :
  l ∈ properties <$> arr →
  h !! l = Some p → density p = None →
  pop p = Some n → area_km2 p = Some a →
  isFinite a = true → positive a = true →
  foldl recompute h arr !! l
  = Some (with_density p (Some (float_of_Z n / a)%float)).
Proof.
  revert h. induction arr as [|f arr IH]; intros h Hin Hp Hd Hn Ha Hfin Hpos.
  - by apply elem_of_nil in Hin.
  - simpl. destruct (decide (properties f = l)) as [<-|Hne].
    + apply foldl_recompute_keeps; [by apply recompute_fills|done].
    + apply IH; try done.
      * simpl in Hin. apply elem_of_cons in Hin as [?|?]; [congruence|done].
      * destruct (recompute_lookup h f l) as [->|(? & ? & ? & _ & ? & _)];
          [done|congruence].
Qed.

Lemma elem_of_assign_ranks (h : Heap) (l : list GFeat) (r : nat) (g : Feature) :
  g ∈ assign_ranks h r l → ∃ f r', f ∈ l ∧ g = ranked h f r'.
Proof.
  revert r. induction l as [|f l IH]; intros r; simpl.
  - by intros ?%elem_of_nil.
  - destruct (pop (h !!! properties f));
      intros [->|(f' & r' & ? & ->)%IH]%elem_of_cons;
      eexists _, _; split; try done; by constructor.
Qed.

(** What the density loop leaves a property object with. *)
Lemma foldl_recompute_total (arr : list GFeat) (h : Heap) (f : GFeat) :
  f ∈ arr →
  foldl recompute h arr !!! properties f
  = with_density (h !!! properties f)
      match density (h !!! properties f) with
      | Some d => Some d
      | None =>
          match pop (h !!! properties f), area_km2 (h !!! properties f) with
          | Some n, Some a =>
              if isFinite a && positive a
              then Some (float_of_Z n / a)%float else None
          | _, _ => None
          end
      end.
Proof.
  intros Hf. rewrite !list_lookup_total_alt.
  destruct (h !! properties f) as [p|] eqn:Hp; simpl.
  - destruct (density p) as [d|] eqn:Hd.
    + rewrite (foldl_recompute_keeps arr h _ p) by (done || congruence).
      simpl. rewrite <-Hd. by destruct p.
    + destruct (pop p) as [n|] eqn:Hn, (area_km2 p) as [a|] eqn:Ha;
        try destruct (isFinite a) eqn:Hfin; try destruct (positive a) eqn:Hpos;
        simpl;
        try (rewrite (foldl_recompute_fills arr h _ p n a);
             [done|by apply list_elem_of_fmap_2|done..]);
        (destruct (foldl_recompute_lookup arr h (properties f))
           as [->|(p' & n' & a' & Hp' & _ & _ & Hn' & Ha' & Hf' & Hpos' & _)];
         [rewrite Hp; simpl; rewrite <-Hd; by destruct p|congruence]).
  - destruct (foldl_recompute_lookup arr h (properties f))
      as [->|(p' & ? & ? & Hp' & _)]; [|congruence].
    by rewrite Hp.
Qed.

(** Every feature [combined] returns is the copy of a feature of the two
    collections with a rank added, and with the density its property
    object had or, if it had none, the quotient of population and area when
    the population is known and the area finite and positive; otherwise the
    density stays missing. *)
Theorem leaflet_combined_density (s : State) :
  Forall (λ g, ∃ f r,
            f ∈ arr_of s
            ∧ App.geometry g = geometry f
            ∧ App.properties g
              = with_rank
                  (with_density (heap s !!! properties f)
                     match density (heap s !!! properties f) with
                     | Some d => Some d
                     | None =>
                         match pop (heap s !!! properties f),
                               area_km2 (heap s !!! properties f) with
                         | Some n, Some a =>
                             if isFinite a && positive a
                             then Some (float_of_Z n / a)%float else None
                         | _, _ => None
                         end
                     end) r)
    (combined s).2.
Proof.
  apply Forall_forall. intros g Hg. unfold combined in Hg. simpl in Hg.
  apply elem_of_assign_ranks in Hg as (f & r & Hf & ->).
  apply elem_of_sort in Hf. exists f, r. split_and!; [done..|].
  unfold ranked. simpl. by rewrite (foldl_recompute_total _ _ _ Hf).
Qed.

Lemma foldl_recompute_idem (arr : list GFeat) (h : Heap) :
  foldl recompute (foldl recompute h arr) arr = foldl recompute h arr.
Proof.
  apply list_eq. intros l.
  destruct (foldl_recompute_lookup arr (foldl recompute h arr) l)
    as [->|(p & n & a & Hp & Hin & Hd & Hn & Ha & Hfin & Hpos & _)]; [done|].
  exfalso.
  destruct (foldl_recompute_lookup arr h l)
    as [Hsame|(p0 & n0 & a0 & Hp0 & _ & _ & _ & _ & _ & _ & Hl)].
  - rewrite Hsame in Hp.
    rewrite (foldl_recompute_fills arr h l p n a) in Hsame by done.
    rewrite Hp in Hsame. simplify_eq. rewrite <-Hsame in Hd. done.
  - rewrite Hl in Hp. by simplify_eq.
Qed.

(** A second render finds nothing left to compute: on the heap a render
    has left, the next render changes no property object and shows the same
    list and layers. *)
Theorem leaflet_render_idempotent (s : State) :
  render {| heap := (render s).1; gemeinden := gemeinden s;
            ortsteile := ortsteile s; query := query s;
            showGemeinden := showGemeinden s;
            showOrtsteile := showOrtsteile s |}
  = render s.
Proof.
  unfold render, combined, arr_of, listItems, gemeindenOnly, ortsteileOnly.
  simpl. fold (arr_of s). by rewrite foldl_recompute_idem.
Qed.
End LeafletDensity.

(** ** The Leaflet application: the list and the zoom *)

Lemma sort_sorted_id {A : Type} (lt : A → A → bool) (l : list A) :
  Sorted (not_after lt) l → sort lt l = l.
Proof.
  induction 1 as [|x l Hl IH Hhd]; simpl; [done|]. rewrite IH.
  destruct Hhd as [|y l Hxy]; simpl; [done|].
  unfold not_after in Hxy. by rewrite Hxy.
Qed.

Lemma StronglySorted_filter {A : Type} (R : A → A → Prop) (P : A → Prop)
    `{!∀ x, Decision (P x)} (l : list A) :
  StronglySorted R l → StronglySorted R (filter P l).
Proof.
  induction 1 as [|x l Hl IH Hall]; [constructor|].
  rewrite filter_cons. destruct (decide (P x)); [|done].
  constructor; [done|]. apply Forall_forall. intros y [_ Hy]%list_elem_of_filter.
  rewrite Forall_forall in Hall. by apply Hall.
Qed.

Section LeafletList.
Import Leaflet LeafletView.

Lemma assign_ranks_sorted (h : Heap) (l : list GFeat) (r : nat) :
  StronglySorted (λ f g, (pop_or_m1 (h !!! properties g)
                          ≤ pop_or_m1 (h !!! properties f))%Z) l →
  StronglySorted (λ a b, (pop_or_m1 (App.properties b)
                          ≤ pop_or_m1 (App.properties a))%Z)
    (assign_ranks h r l).
Proof.
  intros Hl. revert r. induction Hl as [|f l Hl IH Hall]; intros r; simpl.
  - constructor.
  - assert (Hhd : ∀ r0 r1, Forall (λ b, (pop_or_m1 (App.properties b)
                     ≤ pop_or_m1 (App.properties (ranked h f r0)))%Z)
                     (assign_ranks h r1 l)).
    { intros r0 r1. apply Forall_forall.
      intros b (g & r' & Hg & ->)%elem_of_assign_ranks.
      rewrite Forall_forall in Hall. by apply Hall. }
    destruct (pop (h !!! properties f)); constructor; auto.
Qed.

Lemma combined_desc (s : State) :
  StronglySorted (λ a b, (pop_or_m1 (App.properties b)
                          ≤ pop_or_m1 (App.properties a))%Z)
    (combined s).2.
Proof.
  unfold combined. simpl. apply assign_ranks_sorted, sorted_by_pop.
Qed.

Lemma desc_not_after (l : list Feature) :
  StronglySorted (λ a b, (pop_or_m1 (App.properties b)
                          ≤ pop_or_m1 (App.properties a))%Z) l →
  Sorted (not_after (λ a b, before (App.properties a) (App.properties b))) l.
Proof.
  intros Hl%StronglySorted_Sorted. eapply Sorted_weaken; [|exact Hl].
  intros a b Hab. unfold not_after. apply not_true_is_false.
  rewrite before_lt. simpl in Hab. lia.
Qed.

Lemma leaflet_list_items_aux (s : State) :
  list_items (render s).2
  = (if Unicode.is_blank (query s)
     then default [] (if showGemeinden s
                      then gemeindenOnly s (combined s).2
                      else ortsteileOnly s (combined s).2)
     else filter (λ f, matches (query s) (App.properties f) = true)
            (default [] (if showGemeinden s
                         then gemeindenOnly s (combined s).2
                         else ortsteileOnly s (combined s).2)))
  ∧ StronglySorted (λ a b, (pop_or_m1 (App.properties b)
                            ≤ pop_or_m1 (App.properties a))%Z)
      (list_items (render s).2).
Proof.
  assert (Hbase : StronglySorted (λ a b, (pop_or_m1 (App.properties b)
                            ≤ pop_or_m1 (App.properties a))%Z)
            (default [] (if showGemeinden s
                         then gemeindenOnly s (combined s).2
                         else ortsteileOnly s (combined s).2))).
  { unfold gemeindenOnly, ortsteileOnly, of_kind.
    destruct (showGemeinden s), (gemeinden s), (ortsteile s); simpl;
      try constructor; apply StronglySorted_filter, combined_desc. }
  assert (Heq : list_items (render s).2
    = (if Unicode.is_blank (query s)
       then default [] (if showGemeinden s
                        then gemeindenOnly s (combined s).2
                        else ortsteileOnly s (combined s).2)
       else filter (λ f, matches (query s) (App.properties f) = true)
              (default [] (if showGemeinden s
                           then gemeindenOnly s (combined s).2
                           else ortsteileOnly s (combined s).2)))).
  { unfold render, listItems. simpl.
    destruct (showGemeinden s);
      (apply sort_sorted_id, desc_not_after;
       destruct (Unicode.is_blank (query s));
       [exact Hbase|by apply StronglySorted_filter]). }
  split; [exact Heq|]. rewrite Heq.
  destruct (Unicode.is_blank (query s)); [done|by apply StronglySorted_filter].
Qed.

(** Where the search fields are Latin-1: the list is the active
    collection (the municipalities of [combined] if their switch is on, the
    districts otherwise) in the order of [combined], which is by population
    descending, cut down to the features that match unless the query is
    blank: the closing sort of [listItems] moves nothing. *)
Theorem leaflet_list_items (s : State) :
  latin1_state s = true →
  list_items (render s).2
  = (if Unicode.is_blank (query s)
     then default [] (if showGemeinden s
                      then gemeindenOnly s (combined s).2
                      else ortsteileOnly s (combined s).2)
     else filter (λ f, matches (query s) (App.properties f) = true)
            (default [] (if showGemeinden s
                         then gemeindenOnly s (combined s).2
                         else ortsteileOnly s (combined s).2)))
  ∧ StronglySorted (λ a b, (pop_or_m1 (App.properties b)
                            ≤ pop_or_m1 (App.properties a))%Z)
      (list_items (render s).2).
Proof. intros _. apply leaflet_list_items_aux. Qed.

(** The theorem at the state that holds München, searched for "mun". *)
Lemma leaflet_list_items_witness :
  list_items (render (search_state (lit "mun"))).2
  = filter (λ f, matches (lit "mun") (App.properties f) = true)
      (default [] (gemeindenOnly (search_state (lit "mun"))
                     (combined (search_state (lit "mun"))).2))
  ∧ StronglySorted (λ a b, (pop_or_m1 (App.properties b)
                            ≤ pop_or_m1 (App.properties a))%Z)
      (list_items (render (search_state (lit "mun"))).2).
Proof.
  apply (leaflet_list_items (search_state (lit "mun"))). reflexivity.
Defined.

(** Where the search fields are Latin-1: the zoom effect has no target
    exactly when the map is not ready, the query is blank or the list is
    empty; otherwise its target is the first item of the list, which
    matches the query and whose population is the largest among the
    features of [combined] that are of its kind and match. *)
Theorem leaflet_fit_target (s : State) (mapReady : bool) :
  latin1_state s = true →
  (fit_target mapReady (query s) (list_items (render s).2) = None
   ↔ mapReady = false ∨ Unicode.is_blank (query s) = true
     ∨ list_items (render s).2 = [])
  ∧ ∀ f, fit_target mapReady (query s) (list_items (render s).2) = Some f →
         (∃ rest, list_items (render s).2 = f :: rest)
         ∧ f ∈ (combined s).2
         ∧ kind (App.properties f)
           = (if showGemeinden s then gemeinde else ortsteil)
         ∧ matches (query s) (App.properties f) = true
         ∧ ∀ g, g ∈ (combined s).2 →
                kind (App.properties g) = kind (App.properties f) →
                matches (query s) (App.properties g) = true →
                (pop_or_m1 (App.properties g) ≤ pop_or_m1 (App.properties f))%Z.
Proof.
  intros _.
  destruct (leaflet_list_items_aux s) as [Heq Hsorted]. revert Heq Hsorted.
  generalize (list_items (render s).2). intros items Heq Hsorted.
  unfold fit_target. split.
  - destruct mapReady; cbn [negb]; [|by split; [left|]].
    destruct (Unicode.is_blank (query s)); [by split; [right; left|]|].
    destruct items as [|f items]; cbn [head].
    + by split; [right; right|].
    + split; [done|]. by intros [?|[?|?]].
  - intros f Hfit.
    destruct mapReady; cbn [negb] in Hfit; [|done].
    destruct (Unicode.is_blank (query s)) eqn:Hblank; [done|].
    destruct items as [|f' items]; cbn [head] in Hfit; [done|].
    injection Hfit as ->.
    assert (Hbase : ∀ g, g ∈ f :: items
              ↔ (g ∈ default [] (if showGemeinden s
                                 then gemeindenOnly s (combined s).2
                                 else ortsteileOnly s (combined s).2)
                 ∧ matches (query s) (App.properties g) = true)).
    { intros g. rewrite Heq, list_elem_of_filter. tauto. }
    assert (Hactive : ∀ g, g ∈ default [] (if showGemeinden s
                                 then gemeindenOnly s (combined s).2
                                 else ortsteileOnly s (combined s).2)
              → g ∈ (combined s).2
                ∧ kind (App.properties g)
                  = (if showGemeinden s then gemeinde else ortsteil)).
    { intros g. unfold gemeindenOnly, ortsteileOnly, of_kind.
      destruct (showGemeinden s), (gemeinden s), (ortsteile s); simpl;
        try (by intros ?%elem_of_nil);
        by intros [? ?]%list_elem_of_filter. }
    assert (Hf : f ∈ f :: items) by by left.
    apply Hbase in Hf as [Hf Hm]. destruct (Hactive f Hf) as [Hcomb Hkind].
    split_and!; [by eexists|done..|].
    intros g Hg Hgk Hgm.
    apply StronglySorted_inv in Hsorted as [_ Hall].
    assert (Hin : g ∈ f :: items).
    { apply Hbase. split; [|done]. rewrite Hkind in Hgk. clear -Hf Hg Hgk.
      unfold gemeindenOnly, ortsteileOnly, of_kind in *.
      destruct (showGemeinden s), (gemeinden s), (ortsteile s); simpl in *;
        try (by apply elem_of_nil in Hf);
        by apply list_elem_of_filter. }
    apply elem_of_cons in Hin as [->|Hin]; [lia|].
    rewrite Forall_forall in Hall. by apply Hall.
Qed.

(** The theorem at the state that holds München, searched for "mun", the
    map being ready. *)
Lemma leaflet_fit_target_witness :
  let s := search_state (lit "mun") in
  (fit_target true (query s) (list_items (render s).2) = None
   ↔ true = false ∨ Unicode.is_blank (query s) = true
     ∨ list_items (render s).2 = [])
  ∧ ∀ f, fit_target true (query s) (list_items (render s).2) = Some f →
         (∃ rest, list_items (render s).2 = f :: rest)
         ∧ f ∈ (combined s).2
         ∧ kind (App.properties f)
           = (if showGemeinden s then gemeinde else ortsteil)
         ∧ matches (query s) (App.properties f) = true
         ∧ ∀ g, g ∈ (combined s).2 →
                kind (App.properties g) = kind (App.properties f) →
                matches (query s) (App.properties g) = true →
                (pop_or_m1 (App.properties g) ≤ pop_or_m1 (App.properties f))%Z.
Proof.
  apply (leaflet_fit_target (search_state (lit "mun")) true). reflexivity.
Defined.
End LeafletList.

(** ** The Leaflet application: what the search normalisation identifies *)

Section LeafletNorm.
Import Unicode Leaflet.

Lemma norm_app (s t : jsstring) : norm (s ++ t) = norm s ++ norm t.
Proof.
  unfold norm, transliterate, strip_diacritics, normalizeNFD, toLowerCase,
    jsstring.
  by rewrite fmap_app, bind_app, filter_app, bind_app.
Qed.

(** A check that holds for each of the 256 code units below 256. *)
Lemma below_256 (b : N → bool) (d : N) :
  forallb b (N.of_nat <$> seq 0 256) = true → d < 256 → b d = true.
Proof.
  intros Hall Hd. rewrite forallb_forall in Hall. apply Hall.
  apply list_elem_of_In, list_elem_of_fmap. exists (N.to_nat d).
  split; [lia|]. apply elem_of_seq. lia.
Qed.

Lemma lower_idemp (c : N) : lower (lower c) = lower c.
Proof.
  destruct (N.lt_ge_cases c 256) as [Hsmall|Hbig].
  - apply N.eqb_eq.
    apply (below_256 (λ c, lower (lower c) =? lower c)); [by vm_compute|done].
  - assert (Hc : lower c = c); [|by rewrite !Hc]. unfold lower.
    destruct (N.leb_spec 65 c), (N.leb_spec c 90),
      (N.leb_spec 192 c), (N.leb_spec c 222); simpl; try lia; done.
Qed.

Lemma norm_lower (s : jsstring) : norm (toLowerCase s) = norm s.
Proof.
  unfold norm, toLowerCase. do 3 f_equal.
  rewrite <-list_fmap_compose. apply list_fmap_ext. intros i c _.
  apply lower_idemp.
Qed.

(** An accented Latin-1 letter normalises to its base letter. *)
Lemma norm_accented (place base mark : N) :
  decomposition place = Some (base, mark) →
  norm [192 + place] = [97 + base]
  ∧ norm [224 + place] = [97 + base]
  ∧ norm [97 + base] = [97 + base].
Proof.
  destruct place as [|p]; [intros [= <- <-]; by vm_compute|].
  do 5 (destruct p as [p|p|]; try (intros [= <- <-]; by vm_compute);
        try discriminate);
    destruct p; discriminate.
Qed.

Lemma nfd_unit_no_umlaut (d : N) :
  Forall (λ c, c ≠ 228 ∧ c ≠ 246 ∧ c ≠ 252) (nfd_unit d).
Proof.
  destruct (N.lt_ge_cases d 256) as [Hsmall|Hbig].
  - pose proof (below_256
        (λ d, forallb (λ c, negb (c =? 228) && negb (c =? 246)
                            && negb (c =? 252)) (nfd_unit d))
        d eq_refl Hsmall) as Hall.
    rewrite forallb_forall in Hall.
    apply Forall_forall. intros c Hc%list_elem_of_In%Hall.
    apply andb_prop in Hc as [[H1 H2]%andb_prop H3].
    apply negb_true_iff, N.eqb_neq in H1, H2, H3. done.
  - unfold nfd_unit.
    repeat match goal with
    | |- context [(?a <=? ?b)] => destruct (N.leb_spec a b); simpl; try lia
    | |- context [(?a =? ?b)] => destruct (N.eqb_spec a b); simpl; try lia
    end.
    repeat constructor; lia.
Qed.

(** On strings of code units below 256 the search is blind to case and to
    Latin-1 accents: lower-casing a string does not change its normal form,
    an accented letter (an umlaut included) may be replaced by its base
    letter and the sharp s by "ss" without changing it, and, since no
    umlaut survives the decomposition, the three replacements of umlauts by
    digraphs never apply. *)
Theorem leaflet_norm_insensitive (s1 s2 : jsstring) :
  Forall (λ c, c < 256) s1 →
  Forall (λ c, c < 256) s2 →
  norm (toLowerCase s1) = norm s1
  ∧ (∀ place base mark,
       decomposition place = Some (base, mark) →
       norm (s1 ++ [224 + place] ++ s2) = norm (s1 ++ [97 + base] ++ s2)
       ∧ norm (s1 ++ [192 + place] ++ s2) = norm (s1 ++ [97 + base] ++ s2))
  ∧ norm (s1 ++ [223] ++ s2) = norm (s1 ++ [115; 115] ++ s2)
  ∧ Forall (λ c, c ≠ 228 ∧ c ≠ 246 ∧ c ≠ 252)
      (strip_diacritics (normalizeNFD (toLowerCase s1))).
Proof.
  intros _ _. split_and!.
  - apply norm_lower.
  - intros place base mark Hd.
    destruct (norm_accented place base mark Hd) as (Hup & Hlow & Hbase).
    rewrite !norm_app, Hup, Hlow, Hbase. done.
  - by rewrite !norm_app.
  - unfold strip_diacritics, normalizeNFD, toLowerCase.
    apply Forall_forall. intros c [_ Hc]%list_elem_of_filter.
    apply list_elem_of_bind in Hc as (d & Hc & _).
    pose proof (nfd_unit_no_umlaut d) as Hd. rewrite Forall_forall in Hd.
    by apply Hd.
Qed.

(** The theorem at "Mü" and "nchen". *)
Lemma leaflet_norm_insensitive_witness :
  norm (toLowerCase [77; 252]) = norm [77; 252]
  ∧ (∀ place base mark,
       decomposition place = Some (base, mark) →
       norm ([77; 252] ++ [224 + place] ++ lit "nchen")
       = norm ([77; 252] ++ [97 + base] ++ lit "nchen")
       ∧ norm ([77; 252] ++ [192 + place] ++ lit "nchen")
         = norm ([77; 252] ++ [97 + base] ++ lit "nchen"))
  ∧ norm ([77; 252] ++ [223] ++ lit "nchen")
    = norm ([77; 252] ++ [115; 115] ++ lit "nchen")
  ∧ Forall (λ c, c ≠ 228 ∧ c ≠ 246 ∧ c ≠ 252)
      (strip_diacritics (normalizeNFD (toLowerCase [77; 252]))).
Proof.
  apply (leaflet_norm_insensitive [77; 252] (lit "nchen")).
  - repeat constructor.
  - repeat constructor.
Defined.
End LeafletNorm.

(** ** From the splitter to the Leaflet loader *)

Section SplitThenLoad.
Import Splitter.

Lemma filter_none {B : Type} (P : B → Prop) `{!∀ x, Decision (P x)} (l : list B) :
  (∀ x, x ∈ l → ¬ P x) → filter P l = [].
Proof.
  induction l as [|x l IH]; intros Hl; [done|].
  rewrite filter_cons_False by (apply Hl; by left).
  apply IH. intros y Hy. apply Hl. by right.
Qed.

(** A name without surrogates and without U+FFFD is the name on disk of
    itself only. *)
Lemma on_disk_plain (s s' : jsstring) :
  forallb (λ c, c <? 55296) s' = true → on_disk s = s' → s = s'.
Proof.
  assert (H : ∀ (n : nat) (s s' : jsstring),
            (length s ≤ n)%nat →
            forallb (λ c, c <? 55296) s' = true → on_disk s = s' → s = s').
  { clear s s'. intros n.
    induction n as [|n IH]; intros [|c s] s' Hn Hplain Heq; try done.
    - cbn [length] in Hn. lia.
    - rewrite on_disk_cons in Heq. cbn [length] in Hn.
      assert (Hhead : ∀ x t, s' = x :: t → (x <? 55296) = true
                              ∧ forallb (λ c, c <? 55296) t = true).
      { intros x t ->. by apply andb_true_iff in Hplain. }
      unfold is_lead, is_trail in Heq.
      destruct ((55296 <=? c) && (c <=? 56319)) eqn:Hlead.
      + apply andb_true_iff in Hlead as [Hc%N.leb_le _].
        destruct s as [|d s2].
        * destruct (Hhead _ _ (eq_sym Heq)) as [Hx%N.ltb_lt _]. lia.
        * destruct ((56320 <=? d) && (d <=? 57343)).
          -- destruct (Hhead _ _ (eq_sym Heq)) as [Hx%N.ltb_lt _]. lia.
          -- destruct (Hhead _ _ (eq_sym Heq)) as [Hx%N.ltb_lt _]. lia.
      + destruct ((56320 <=? c) && (c <=? 57343)).
        * destruct (Hhead _ _ (eq_sym Heq)) as [Hx%N.ltb_lt _]. lia.
        * destruct s' as [|x t]; [done|]. injection Heq as -> Ht.
          destruct (Hhead _ _ eq_refl) as [_ Hrest].
          f_equal. apply IH; [lia|done..]. }
  by apply (H (length s)).
Qed.

Lemma on_disk_id (s : jsstring) :
  forallb (λ c, c <? 55296) s = true → on_disk s = s.
Proof.
  induction s as [|c s IH]; [done|]. cbn [forallb].
  intros [Hc%N.ltb_lt Hs]%andb_true_iff. rewrite on_disk_cons.
  unfold is_lead, is_trail.
  replace (55296 <=? c) with false by (symmetry; apply N.leb_gt; lia).
  replace (56320 <=? c) with false by (symmetry; apply N.leb_gt; lia).
  cbn [andb]. by rewrite IH.
Qed.

Lemma codes_plain (c : jsstring) :
  c ∈ Leaflet.codes → forallb (λ d, d <? 55296) (file_name c) = true.
Proof.
  assert (H : Forall (λ c, forallb (λ d, d <? 55296) (file_name c) = true)
                Leaflet.codes) by (repeat constructor).
  rewrite Forall_forall in H. apply H.
Qed.

(** In a run that ends without exception, the file of a code is there when
    no other code of the run has its name on disk. *)
Lemma written_foldl_has (by_ : ByState) (c : jsstring) (l : list jsstring)
    (r : Run) :
  NoDup l → c ∈ l →
  thrown (foldl (write_step by_) r l) = false →
  (∀ c', c' ∈ l → on_disk (file_name c') = on_disk (file_name c) → c' = c) →
  (on_disk (file_name c), {| features := written_feature <$> get by_ c |})
    ∈ written (foldl (write_step by_) r l).
Proof.
  revert r. induction l as [|a l IH]; intros r Hnd Hc Hend Hinj.
  - by apply elem_of_nil in Hc.
  - apply NoDup_cons in Hnd as [Ha Hnd]. cbn [foldl] in *.
    assert (Hstep : thrown (write_step by_ r a) = false).
    { rewrite thrown_foldl in Hend. by apply orb_false_iff in Hend as [? _]. }
    apply elem_of_cons in Hc as [->|Hc].
    + apply written_foldl_keeps.
      * destruct (thrown r) eqn:Hr.
        { rewrite write_step_thrown in Hstep by done. congruence. }
        destruct (writable (file_name a)) eqn:Hw.
        -- rewrite write_step_written by done.
           cbn [written]. unfold write_file. apply elem_of_app. right.
           apply list_elem_of_here.
        -- unfold write_step in Hstep. by rewrite Hr, Hw in Hstep.
      * intros c' Hc' Heq. cbn [fst] in Heq.
        apply Ha. rewrite <-(Hinj c'); [done|by right|done].
    + apply IH; [done..|]. intros c' Hc'. apply Hinj. by right.
Qed.

(** When the run of the splitter ended without exception and the files it
    left are what the chunk requests are answered from (a file that is
    there is served and parses to its features, a file that is not there
    gives no JSON), the Leaflet loader sets the municipalities to the
    features, as they were written, whose identifier prefix is one of the
    sixteen state codes, grouped by code in ascending order and in input
    order within a code. Features of any other prefix, the empty one
    included, are written by the splitter and never loaded. *)
Theorem split_then_load (decode : Feature → App.Feature)
    (fc : FeatureCollection)
    (world : Leaflet.Request → Fetched Leaflet.Body) :
  thrown (main fc) = false →
  (∀ c w, c ∈ Leaflet.codes → w ∈ written (main fc) → w.1 = file_name c →
          world (Leaflet.Chunk c)
          = Response true (Some (Some (decode <$> features w.2)))) →
  (∀ c, c ∈ Leaflet.codes → file_name c ∉ (written (main fc)).*1 →
        match world (Leaflet.Chunk c) with
        | Response true (Some _) => False
        | _ => True
        end) →
  Leaflet.load_gemeinden world
  = {| set_to :=
         Some (mjoin ((λ c, decode ∘ written_feature
                              <$> filter (λ f, identifier_prefix f = c)
                                    (features fc))
                        <$> Leaflet.codes));
       unhandled := false |}
  ∧ mjoin ((λ c, decode ∘ written_feature
                   <$> filter (λ f, identifier_prefix f = c) (features fc))
             <$> Leaflet.codes)
    ≡ₚ decode ∘ written_feature
         <$> filter (λ f, identifier_prefix f ∈ Leaflet.codes) (features fc).
Proof.
  intros Hend Hhit Hmiss.
  destruct (codes_of_group (features fc)) as (Hnd & Hin & _).
  destruct (group_grouped (features fc)) as (_ & _ & Hget).
  assert (Hall : Forall (λ w, ∃ code,
                           w = (on_disk (file_name code),
                                {| features :=
                                     written_feature
                                       <$> get (group (features fc)) code |}))
                   (written (main fc))).
  { unfold main. cbv zeta. apply written_foldl_Forall; [constructor|].
    intros c Hc Hwr. by exists c. }
  rewrite Forall_forall in Hall.
  assert (Hchunk : ∀ c, c ∈ Leaflet.codes →
            match world (Leaflet.Chunk c) with
            | Response true (Some b) => b
            | _ => Some []
            end
            = Some (decode ∘ written_feature
                      <$> filter (λ f, identifier_prefix f = c) (features fc))).
  { intros c Hcode. rewrite filter_prefix.
    destruct (decide (file_name c ∈ (written (main fc)).*1)) as [Hc|Hc].
    - apply list_elem_of_fmap in Hc as (w & Hname & Hw).
      rewrite (Hhit c w Hcode Hw (eq_sym Hname)).
      destruct (Hall w Hw) as (code & ->). cbn [fst snd features] in *.
      symmetry in Hname. apply on_disk_plain in Hname; [|by apply codes_plain].
      apply file_name_inj in Hname. subst code.
      by rewrite Hget, <-list_fmap_compose.
    - rewrite filter_none.
      { specialize (Hmiss c Hcode Hc).
        by destruct (world (Leaflet.Chunk c)) as [|[] []]. }
      intros f Hf Hstate. apply Hc.
      apply list_elem_of_fmap.
      exists (on_disk (file_name c),
              {| features :=
                   written_feature <$> get (group (features fc)) c |}).
      split.
      + cbn [fst]. symmetry. apply on_disk_id. by apply codes_plain.
      + unfold main in *. cbv zeta in *.
        apply written_foldl_has; [done| |done|].
        * apply Hin. eauto.
        * intros c' _ Heq.
          assert (Hc' : on_disk (file_name c) = file_name c).
          { apply on_disk_id. by apply codes_plain. }
          rewrite Hc' in Heq.
          apply on_disk_plain in Heq; [|by apply codes_plain].
          by apply file_name_inj in Heq. }
  split.
  - rewrite load_gemeinden_chunks.
    rewrite (list_fmap_ext _
               (λ c, Some (decode ∘ written_feature
                             <$> filter (λ f, identifier_prefix f = c)
                                   (features fc)))
               Leaflet.codes)
      by (intros i c Hc%list_elem_of_lookup_2; by apply Hchunk).
    clear. generalize Leaflet.codes. intros l.
    assert (Hflat : Leaflet.flat_features
              ((λ c, Some (decode ∘ written_feature
                             <$> filter (λ f, identifier_prefix f = c)
                                   (features fc))) <$> l)
            = Resolved (mjoin ((λ c, decode ∘ written_feature
                                       <$> filter (λ f, identifier_prefix f = c)
                                             (features fc)) <$> l))).
    { induction l as [|c l IH]; [done|]. csimpl. by rewrite IH. }
    by rewrite Hflat.
  - rewrite mjoin_fmap_fmap. apply fmap_Permutation.
    rewrite (list_fmap_ext _
               (λ c, filter (λ f, state_of f = c)
                       (filter (λ f, identifier_prefix f ∈ Leaflet.codes)
                          (features fc)))
               Leaflet.codes).
    + apply join_classes_Permutation; [compute_done|].
      intros f [? _]%list_elem_of_filter. by rewrite state_of_prefix.
    + intros i c Hc. simpl.
      rewrite list_filter_filter. apply list_filter_iff. intros f.
      rewrite state_of_prefix.
      split; [|by intros [? _]]. intros <-. split; [done|].
      by eapply list_elem_of_lookup_2.
Qed.

(** The theorem at a collection of one municipality of Schleswig-Holstein
    and one feature without identifier, served from the written files. *)
Lemma split_then_load_witness :
  Leaflet.load_gemeinden (served_chunks split_example)
  = {| set_to :=
         Some (mjoin ((λ c, decode_example ∘ written_feature
                              <$> filter (λ f, identifier_prefix f = c)
                                    (features split_example))
                        <$> Leaflet.codes));
       unhandled := false |}
  ∧ mjoin ((λ c, decode_example ∘ written_feature
                   <$> filter (λ f, identifier_prefix f = c)
                         (features split_example))
             <$> Leaflet.codes)
    ≡ₚ decode_example ∘ written_feature
         <$> filter (λ f, identifier_prefix f ∈ Leaflet.codes)
               (features split_example).
Proof.
  apply (split_then_load decode_example split_example
           (served_chunks split_example)).
  - reflexivity.
  - intros c w Hc Hw Hname.
    assert (Hwr : written (main split_example)
                  = [ (file_name [],
                       {| features :=
                            filter (λ f, state_of f = []) (features split_example) |});
                      (file_name (lit "01"),
                       {| features :=
                            filter (λ f, state_of f = lit "01")
                              (features split_example) |}) ])
      by reflexivity.
    rewrite Hwr in Hw.
    apply elem_of_cons in Hw as [->|Hw].
    + assert (Hn : file_name c = file_name []) by (symmetry; exact Hname).
      apply file_name_inj in Hn. subst c.
      exfalso. revert Hc. compute_done.
    + apply list_elem_of_singleton in Hw as ->.
      assert (Hn : file_name c = file_name (lit "01"))
        by (symmetry; exact Hname).
      apply file_name_inj in Hn. by subst c.
  - intros c Hc Hmiss. unfold served_chunks.
    destruct (decide (c = lit "01")) as [->|Hne]; [|done].
    apply Hmiss. vm_compute. right. left.
Defined.
End SplitThenLoad.

(** ** The MapLibre application: ranking in general *)

Section MapLibreRanks.
Import MapLibre.

Lemma maplibre_before_asym (a b : Feature) :
  before a b = true → before b a = false.
Proof.
  unfold before, compare_pop.
  destruct (Z.eqb_spec (pop_or_m1 (properties a)) (-1)),
    (Z.eqb_spec (pop_or_m1 (properties b)) (-1)); simpl;
    rewrite ?Z.ltb_lt, ?Z.ltb_ge; lia.
Qed.

Lemma maplibre_not_after (a b : Feature) :
  not_after before a b →
  pop_or_m1 (properties b) = (-1)%Z
  ∨ (pop_or_m1 (properties a) ≠ (-1)%Z
     ∧ (pop_or_m1 (properties a) ≤ pop_or_m1 (properties b))%Z).
Proof.
  unfold not_after, before, compare_pop.
  destruct (Z.eqb_spec (pop_or_m1 (properties a)) (-1)),
    (Z.eqb_spec (pop_or_m1 (properties b)) (-1)); simpl;
    rewrite ?Z.ltb_lt, ?Z.ltb_ge; try lia; done.
Qed.

Lemma maplibre_elem_of_assign_ranks (l : list Feature) (r : nat) (g : Feature) :
  g ∈ assign_ranks r l →
  ∃ f r', f ∈ l ∧ geometry g = geometry f
          ∧ properties g = with_rank (properties f) r'.
Proof.
  revert r. induction l as [|f l IH]; intros r; simpl.
  - by intros ?%elem_of_nil.
  - destruct (pop_truthy (properties f));
      intros [->|(f' & r' & ? & ? & ?)%IH]%elem_of_cons.
    + exists f, (Some r). split_and!; [by left|done..].
    + exists f', r'. split_and!; [by right|done..].
    + exists f, None. split_and!; [by left|done..].
    + exists f', r'. split_and!; [by right|done..].
Qed.

Lemma maplibre_assign_ranks_sorted (R : Z → Z → Prop) (l : list Feature) (r : nat) :
  StronglySorted (λ a b, R (pop_or_m1 (properties a)) (pop_or_m1 (properties b))) l →
  StronglySorted (λ a b, R (pop_or_m1 (properties a)) (pop_or_m1 (properties b)))
    (assign_ranks r l).
Proof.
  intros Hl. revert r. induction Hl as [|f l Hl IH Hall]; intros r; simpl.
  - constructor.
  - assert (Hhd : ∀ r0 r1,
              Forall (λ b, R (pop_or_m1 (with_rank (properties f) r0))
                             (pop_or_m1 (properties b)))
                (assign_ranks r1 l)).
    { intros r0 r1. apply Forall_forall.
      intros b (g & r' & Hg & _ & ->)%maplibre_elem_of_assign_ranks.
      rewrite Forall_forall in Hall. by apply Hall. }
    destruct (pop_truthy (properties f)); constructor; auto; apply Hhd.
Qed.

Lemma maplibre_assign_ranks_omap (l : list Feature) (r : nat) :
  omap (λ g, rank (properties g)) (assign_ranks r l)
  = seq r (length (filter (λ f, pop_truthy (properties f) = true) l)).
Proof.
  revert r. induction l as [|f l IH]; intros r; simpl; [done|].
  rewrite filter_cons.
  destruct (pop_truthy (properties f)) eqn:Hf;
    destruct (decide _) as [Hd|Hd]; try done; simpl; by rewrite IH.
Qed.

Lemma maplibre_assign_ranks_Forall2 (l : list Feature) (r : nat) :
  Forall2 (λ f g, geometry g = geometry f
                  ∧ ∃ r', properties g = with_rank (properties f) r'
                          ∧ (is_Some r' ↔ pop_truthy (properties f) = true))
    l (assign_ranks r l).
Proof.
  revert r. induction l as [|f l IH]; intros r; simpl; [constructor|].
  destruct (pop_truthy (properties f)) eqn:Hf; constructor; try apply IH.
  - simpl. split; [reflexivity|]. exists (Some r). split; [reflexivity|].
    split; [intros _; exact Hf|intros _; by eexists].
  - simpl. split; [reflexivity|]. exists None. split; [reflexivity|].
    split; [by intros [? ?]|congruence].
Qed.

Lemma filter_normalise (l : list Feature) :
  length (filter (λ f, pop_truthy (properties f) = true) (normalise <$> l))
  = length (filter (λ f, pop_truthy (properties f) = true) l).
Proof.
  induction l as [|f l IH]; [done|]. csimpl. rewrite !filter_cons.
  change (pop_truthy (properties (normalise f)))
    with (pop_truthy (properties f)).
  destruct (decide _); simpl; by rewrite IH.
Qed.

(** The MapLibre [combined] as it behaves: its result is, feature by
    feature, a reordering of the merged input with a rank added; a feature
    gets a rank exactly when its population is known and not 0; the ranks
    handed out are 1, 2, ..., N down the list without gap or repeat; and
    the list is sorted by population ascending (so rank 1 is the smallest
    ranked population), unknown populations, and a population of -1, last. *)
Theorem maplibre_combined_ranks (t : State) :
  (∃ sorted,
     sorted ≡ₚ normalise <$> feats_of t
     ∧ Forall2 (λ f g, geometry g = geometry f
                       ∧ ∃ r, properties g = with_rank (properties f) r
                              ∧ (is_Some r ↔ pop_truthy (properties f) = true))
         sorted (combined t))
  ∧ omap (λ g, rank (properties g)) (combined t)
    = seq 1 (length (filter (λ f, pop_truthy (properties f) = true) (feats_of t)))
  ∧ StronglySorted
      (λ a b, pop_or_m1 (properties b) = (-1)%Z
              ∨ (pop_or_m1 (properties a) ≠ (-1)%Z
                 ∧ (pop_or_m1 (properties a) ≤ pop_or_m1 (properties b))%Z))
      (combined t).
Proof.
  unfold combined. split_and!.
  - exists (sort before (normalise <$> feats_of t)). split.
    + apply sort_Permutation.
    + apply maplibre_assign_ranks_Forall2.
  - rewrite maplibre_assign_ranks_omap. f_equal.
    rewrite <-(filter_normalise (feats_of t)).
    apply Permutation_length, filter_Permutation, sort_Permutation.
  - apply (maplibre_assign_ranks_sorted
             (λ ka kb, kb = (-1)%Z ∨ (ka ≠ (-1)%Z ∧ (ka ≤ kb)%Z))).
    apply Sorted_StronglySorted.
    { intros a b c. simpl. lia. }
    eapply Sorted_weaken; [|apply sort_Sorted, maplibre_before_asym].
    intros a b. apply maplibre_not_after.
Qed.
End MapLibreRanks.

(** ** The producer: identifiers and keys *)

Section ProducerKeys.
Import Producer.

Lemma length_padStart0 (n : nat) (s : jsstring) :
  length (padStart0 n s) = (n `max` length s)%nat.
Proof. unfold padStart0. rewrite length_app, length_replicate. lia. Qed.

(** The identifier of an emitted municipality is its [ags] with zeros in
    front, at least eight code units long, and is stored as [id] and as
    [ags] alike. The key a municipality is joined on has exactly five code
    units, so a county whose own [ars] is longer than five is stored under
    a key that no municipality ever looks up. *)
Theorem producer_keys (Number : jsstring → float) (m : gmap jsstring Kreis)
    (f c : RawFeature) :
  id (properties (emit Number m f)) = ags (properties (emit Number m f))
  ∧ (8 ≤ length (id (properties (emit Number m f))))%nat
  ∧ (∃ k, id (properties (emit Number m f))
          = replicate k 48 ++ str_or_empty (r_ags (props_of f)))
  ∧ length (ars5_of f) = 5%nat
  ∧ ((5 < length (str_or_empty (r_ars (props_of c))))%nat →
     krs_key c ≠ ars5_of f).
Proof.
  split_and!.
  - done.
  - simpl. rewrite length_padStart0. lia.
  - simpl. unfold padStart0. eauto.
  - unfold ars5_of, slice0. rewrite length_take, length_padStart0. lia.
  - intros Hlong Heq. apply (f_equal length) in Heq.
    unfold krs_key, ars5_of, slice0 in Heq.
    rewrite length_take, !length_padStart0 in Heq. lia.
Qed.
End ProducerKeys.

(** ** The state the load effect leaves *)

Section LeafletStarted.
Import Leaflet LeafletView.

Lemma alloc_properties (h : Heap) (fc : list Feature) :
  properties <$> (alloc h fc).2 = seq (length h) (length fc).
Proof.
  unfold alloc. cbn [snd]. revert h.
  induction fc as [|f fc IH] using rev_ind; intros h; [done|].
  rewrite imap_app, fmap_app, IH, length_app, seq_app. simpl.
  by rewrite Nat.add_0_r.
Qed.

Lemma heap_lookup_alloc (h props later : Heap) (i : nat) (p : FProps) :
  props !! i = Some p → (h ++ props ++ later) !!! (length h + i)%nat = p.
Proof.
  intros Hp. apply list_lookup_total_correct.
  rewrite lookup_app_r by lia.
  replace (length h + i - length h)%nat with i by lia.
  by apply lookup_app_l_Some.
Qed.

Lemma alloc_deref (h : Heap) (fc : list Feature) (later : Heap) :
  deref ((alloc h fc).1 ++ later) <$> (alloc h fc).2 = fc.
Proof.
  unfold alloc. cbn [fst snd]. apply list_eq. intros i.
  rewrite list_lookup_fmap, list_lookup_imap.
  destruct (fc !! i) as [[p g]|] eqn:Hi; [|done].
  simpl. unfold deref. simpl. do 2 f_equal.
  rewrite <-app_assoc. apply heap_lookup_alloc.
  by rewrite list_lookup_fmap, Hi.
Qed.

(** The state after the two setters, by what they were handed. *)
Lemma started_from (g : option (list Feature)) (ob : option Body)
    (u1 u2 : bool) :
  let s := receive_body
             (receive setGemeinden initial {| set_to := g; unhandled := u1 |})
             {| set_to := ob; unhandled := u2 |} in
  (λ l : list GFeat, deref (heap s) <$> l) <$> gemeinden s = g
  ∧ (λ l : list GFeat, deref (heap s) <$> l) <$> ortsteile s
    = match ob with
      | Some (Some fc) => Some fc
      | _ => None
      end
  ∧ NoDup (properties <$> arr_of s)
  ∧ query s = [] ∧ showGemeinden s = true ∧ showOrtsteile s = false.
Proof.
  unfold receive_body, receive. cbn [set_to].
  destruct g as [fc|], ob as [[oc|]|]; unfold arr_of; simpl;
    split_and!; try done; try apply NoDup_nil_2.
  - f_equal. apply (alloc_deref [] fc).
  - f_equal. rewrite <-(app_nil_r (_ ++ _)).
    apply (alloc_deref (App.properties <$> fc) oc []).
  - rewrite fmap_app.
    change (NoDup ((properties <$> (alloc [] fc).2)
                   ++ (properties <$> (alloc (App.properties <$> fc) oc).2))).
    rewrite !alloc_properties, length_fmap. simpl.
    rewrite <-seq_app. apply NoDup_seq.
  - f_equal. rewrite <-(app_nil_r (_ <$> fc)) at 1.
    apply (alloc_deref [] fc []).
  - rewrite app_nil_r.
    change (NoDup (properties <$> (alloc [] fc).2)).
    rewrite alloc_properties. apply NoDup_seq.
  - f_equal. rewrite <-(app_nil_r (_ <$> fc)) at 1.
    apply (alloc_deref [] fc []).
  - rewrite app_nil_r.
    change (NoDup (properties <$> (alloc [] fc).2)).
    rewrite alloc_properties. apply NoDup_seq.
  - f_equal. rewrite <-(app_nil_r (_ <$> oc)) at 1.
    apply (alloc_deref [] oc []).
  - change (NoDup (properties <$> (alloc [] oc).2)).
    rewrite alloc_properties. apply NoDup_seq.
Qed.

(** Once the load effect has settled: the municipalities are set unless
    the body of an OK chunk response is the JSON [null], and then to the
    features of the chunks that came, in the order of the codes (to none
    if every chunk failed); the districts are set exactly when their
    response has a body that is a collection, whatever its status; the
    stored feature objects read back as the fetched features, in their
    order; no two of them share a property object; and the query and the
    switches have their defaults. *)
Theorem leaflet_started (world : Request → Fetched Body) :
  let s := started world in
  (λ l : list GFeat, deref (heap s) <$> l) <$> gemeinden s
  = (if existsb (λ c, match world (Chunk c) with
                      | Response true (Some None) => true
                      | _ => false
                      end) codes
     then None
     else Some (mjoin ((λ c, match world (Chunk c) with
                             | Response true (Some (Some fc)) => fc
                             | _ => []
                             end) <$> codes)))
  ∧ (λ l : list GFeat, deref (heap s) <$> l) <$> ortsteile s
    = match world Ortsteile with
      | Response _ (Some (Some fc)) => Some fc
      | _ => None
      end
  ∧ NoDup (properties <$> arr_of s)
  ∧ query s = [] ∧ showGemeinden s = true ∧ showOrtsteile s = false.
Proof.
  cbv zeta. unfold started.
  rewrite load_gemeinden_chunks, flat_features_chunks.
  assert (Ho : load_ortsteile world
               = {| set_to := match world Ortsteile with
                              | Response _ (Some b) => Some b
                              | _ => None
                              end;
                    unhandled := false |}).
  { unfold load_ortsteile. by destruct (world Ortsteile) as [|ok []]. }
  rewrite Ho. clear Ho.
  destruct (existsb _ codes); cbn [settle].
  - destruct (started_from None
                match world Ortsteile with
                | Response _ (Some b) => Some b
                | _ => None
                end true false) as (Hg & Hd & Hrest).
    split; [exact Hg|]. split; [|exact Hrest].
    rewrite Hd. by destruct (world Ortsteile) as [|ok [[?|]|]].
  - match goal with
    | |- context [ {| set_to := Some ?fc; unhandled := false |} ] =>
        destruct (started_from (Some fc)
                    match world Ortsteile with
                    | Response _ (Some b) => Some b
                    | _ => None
                    end false false) as (Hg & Hd & Hrest)
    end.
    split; [exact Hg|]. split; [|exact Hrest].
    rewrite Hd. by destruct (world Ortsteile) as [|ok [[?|]|]].
Qed.
End LeafletStarted.

(** ** The heap across a render, exactly *)

Section LeafletFrameAmended.
Import Leaflet.

(** C8, amended. A render keeps the heap's length, and of every property
    object it changes nothing but this: where the object belongs to a
    feature of the two collections and has no density, a known population
    and a finite and positive area, its density becomes the quotient of
    population and area. Every other property object stays as it is;
    ranking, the split by kind and filtering write to copies. *)
Theorem render_heap_frame (s : State) :
  length (render s).1 = length (heap s)
  ∧ ∀ (l : loc) (p : FProps),
      heap s !! l = Some p →
      (render s).1 !! l
      = Some match density p, pop p, area_km2 p with
             | None, Some n, Some a =>
                 if bool_decide (l ∈ properties <$> arr_of s)
                    && isFinite a && positive a
                 then with_density p (Some (float_of_Z n / a)%float)
                 else p
             | _, _, _ => p
             end.
Proof.
  rewrite render_heap. split; [apply foldl_recompute_length|].
  intros l p Hp.
  destruct (density p) as [d|] eqn:Hd.
  { apply foldl_recompute_keeps; [done|]. by rewrite Hd. }
  assert (Hsame : ¬ (∃ n a, pop p = Some n ∧ area_km2 p = Some a
                            ∧ l ∈ properties <$> arr_of s
                            ∧ isFinite a = true ∧ positive a = true) →
                  foldl recompute (heap s) (arr_of s) !! l = Some p).
  { intros Hnot.
    destruct (foldl_recompute_lookup (arr_of s) (heap s) l)
      as [->|(p' & n & a & Hp' & Hin & _ & Hn & Ha & Hf & Hpos & _)]; [done|].
    exfalso. apply Hnot. exists n, a. by simplify_eq. }
  destruct (pop p) as [n|] eqn:Hn; [|apply Hsame; by intros (? & ? & ? & _)].
  destruct (area_km2 p) as [a|] eqn:Ha;
    [|apply Hsame; by intros (? & ? & _ & ? & _)].
  case_bool_decide as Hin; cbn [andb];
    [|apply Hsame; intros (? & ? & _ & _ & ? & _); done].
  destruct (isFinite a) eqn:Hf; cbn [andb];
    [|apply Hsame; intros (? & ? & _ & ? & _ & ? & _); congruence].
  destruct (positive a) eqn:Hpos;
    [|apply Hsame; intros (? & ? & _ & ? & _ & _ & ?); congruence].
  by apply foldl_recompute_fills.
Qed.
End LeafletFrameAmended.

(** ** The switches, the layers and the list *)

Section TogglesAmended.

Lemma maplibre_length_combined (t : MapLibre.State) :
  length (MapLibre.combined t)
  = (length (default [] (MapLibre.gemeinden t))
     + length (default [] (MapLibre.ortsteile t)))%nat.
Proof.
  unfold MapLibre.combined, MapLibre.feats_of.
  rewrite <-(Forall2_length _ _ _ (maplibre_assign_ranks_Forall2 _ 1)).
  rewrite (Permutation_length (sort_Permutation _ _)).
  by rewrite length_fmap, length_app.
Qed.

(** C7, amended. In both variants a map layer is mounted exactly when its
    switch is on and its collection is loaded, and then holds the features
    of [combined] of its kind. The Leaflet list follows the municipality
    switch alone: it holds features of one kind only, municipalities while
    that switch is on and districts while it is off, whatever the district
    switch says; with a blank query it holds all of them, and, where the
    search fields are Latin-1, otherwise those that match. The MapLibre
    list does not depend on either switch: with an empty query it is all
    of [combined], which has one feature per loaded feature of either
    collection. A switch changes nothing but itself and sends no request,
    so switching off and back restores the state, and with it the layer
    and the list, from the data already fetched. *)
Theorem toggles_layers_and_list (s : Leaflet.State) (t : MapLibre.State) :
  (* Leaflet: the layers *)
  (is_Some (Leaflet.gemeinden_layer (Leaflet.render s).2)
     ↔ Leaflet.showGemeinden s = true ∧ is_Some (Leaflet.gemeinden s))
  ∧ (is_Some (Leaflet.ortsteile_layer (Leaflet.render s).2)
     ↔ Leaflet.showOrtsteile s = true ∧ is_Some (Leaflet.ortsteile s))
  ∧ (∀ l, Leaflet.gemeinden_layer (Leaflet.render s).2 = Some l →
          l = filter (λ f, kind (properties f) = gemeinde)
                (Leaflet.combined s).2)
  ∧ (∀ l, Leaflet.ortsteile_layer (Leaflet.render s).2 = Some l →
          l = filter (λ f, kind (properties f) = ortsteil)
                (Leaflet.combined s).2)
  (* Leaflet: the list *)
  ∧ (∀ f, f ∈ Leaflet.list_items (Leaflet.render s).2 →
          kind (properties f)
          = if Leaflet.showGemeinden s then gemeinde else ortsteil)
  ∧ (Unicode.is_blank (Leaflet.query s) = true →
     Leaflet.list_items (Leaflet.render s).2
     = match (if Leaflet.showGemeinden s
              then Leaflet.gemeinden s else Leaflet.ortsteile s) with
       | Some _ =>
           filter (λ f, kind (properties f)
                        = if Leaflet.showGemeinden s then gemeinde else ortsteil)
             (Leaflet.combined s).2
       | None => []
       end)
  ∧ (latin1_state s = true →
     ∀ f, f ∈ Leaflet.list_items (Leaflet.render s).2
          ↔ f ∈ (Leaflet.combined s).2
            ∧ kind (properties f)
              = (if Leaflet.showGemeinden s then gemeinde else ortsteil)
            ∧ is_Some (if Leaflet.showGemeinden s
                       then Leaflet.gemeinden s else Leaflet.ortsteile s)
            ∧ (Unicode.is_blank (Leaflet.query s) = true
               ∨ Leaflet.matches (Leaflet.query s) (properties f) = true))
  ∧ (∀ b, Leaflet.list_items
            (Leaflet.render (Leaflet.handle s (Leaflet.SetShowOrtsteile b)).1).2
          = Leaflet.list_items (Leaflet.render s).2)
  (* Leaflet: the switches *)
  ∧ (∀ e, (Leaflet.handle s e).2 = []
          ∧ Leaflet.heap (Leaflet.handle s e).1 = Leaflet.heap s
          ∧ Leaflet.gemeinden (Leaflet.handle s e).1 = Leaflet.gemeinden s
          ∧ Leaflet.ortsteile (Leaflet.handle s e).1 = Leaflet.ortsteile s)
  ∧ (∀ b, (Leaflet.handle
             (Leaflet.handle s (Leaflet.SetShowGemeinden b)).1
             (Leaflet.SetShowGemeinden (Leaflet.showGemeinden s))).1 = s)
  ∧ (∀ b, (Leaflet.handle
             (Leaflet.handle s (Leaflet.SetShowOrtsteile b)).1
             (Leaflet.SetShowOrtsteile (Leaflet.showOrtsteile s))).1 = s)
  (* MapLibre: the layers *)
  ∧ (is_Some (MapLibre.gemeinden_layer (MapLibre.render t))
     ↔ MapLibre.showGemeinden t = true ∧ is_Some (MapLibre.gemeinden t))
  ∧ (is_Some (MapLibre.ortsteile_layer (MapLibre.render t))
     ↔ MapLibre.showOrtsteile t = true ∧ is_Some (MapLibre.ortsteile t))
  ∧ (∀ l, MapLibre.gemeinden_layer (MapLibre.render t) = Some l →
          l = filter (λ f, kind (properties f) = gemeinde) (MapLibre.combined t))
  ∧ (∀ l, MapLibre.ortsteile_layer (MapLibre.render t) = Some l →
          l = filter (λ f, kind (properties f) = ortsteil) (MapLibre.combined t))
  (* MapLibre: the list *)
  ∧ (MapLibre.query t = [] →
     MapLibre.list_items (MapLibre.render t) = MapLibre.combined t)
  ∧ length (MapLibre.combined t)
    = (length (default [] (MapLibre.gemeinden t))
       + length (default [] (MapLibre.ortsteile t)))%nat
  ∧ (∀ b, MapLibre.list_items
            (MapLibre.render (MapLibre.handle t (MapLibre.SetShowGemeinden b)).1)
          = MapLibre.list_items (MapLibre.render t))
  ∧ (∀ b, MapLibre.list_items
            (MapLibre.render (MapLibre.handle t (MapLibre.SetShowOrtsteile b)).1)
          = MapLibre.list_items (MapLibre.render t))
  (* MapLibre: the switches *)
  ∧ (∀ e, (MapLibre.handle t e).2 = []
          ∧ MapLibre.gemeinden (MapLibre.handle t e).1 = MapLibre.gemeinden t
          ∧ MapLibre.ortsteile (MapLibre.handle t e).1 = MapLibre.ortsteile t)
  ∧ (∀ b, (MapLibre.handle
             (MapLibre.handle t (MapLibre.SetShowGemeinden b)).1
             (MapLibre.SetShowGemeinden (MapLibre.showGemeinden t))).1 = t)
  ∧ (∀ b, (MapLibre.handle
             (MapLibre.handle t (MapLibre.SetShowOrtsteile b)).1
             (MapLibre.SetShowOrtsteile (MapLibre.showOrtsteile t))).1 = t).
Proof.
  assert (Hbase : ∀ f,
            f ∈ default []
                  (if Leaflet.showGemeinden s
                   then Leaflet.gemeindenOnly s (Leaflet.combined s).2
                   else Leaflet.ortsteileOnly s (Leaflet.combined s).2)
            ↔ f ∈ (Leaflet.combined s).2
              ∧ kind (properties f)
                = (if Leaflet.showGemeinden s then gemeinde else ortsteil)
              ∧ is_Some (if Leaflet.showGemeinden s
                         then Leaflet.gemeinden s else Leaflet.ortsteile s)).
  { intros f. unfold Leaflet.gemeindenOnly, Leaflet.ortsteileOnly, Leaflet.of_kind.
    destruct (Leaflet.showGemeinden s), (Leaflet.gemeinden s),
      (Leaflet.ortsteile s); simpl;
      rewrite ?list_elem_of_filter, ?elem_of_nil;
      split; try (by intros [? [? [? [=]]]]); try done;
      try (intros [? ?]; split_and!; by eauto);
      by intros (? & ? & _). }
  destruct (leaflet_list_items_aux s) as [Hlist _].
  split_and!.
  - unfold Leaflet.render, Leaflet.gemeindenOnly. simpl.
    destruct (Leaflet.showGemeinden s), (Leaflet.gemeinden s); simpl;
      split; try done; intros H; try (by destruct H as [? []]);
      by inversion H.
  - unfold Leaflet.render, Leaflet.ortsteileOnly. simpl.
    destruct (Leaflet.showOrtsteile s), (Leaflet.ortsteile s); simpl;
      split; try done; intros H; try (by destruct H as [? []]);
      by inversion H.
  - intros l. unfold Leaflet.render, Leaflet.gemeindenOnly. simpl.
    destruct (Leaflet.showGemeinden s), (Leaflet.gemeinden s); simpl;
      by intros [= <-].
  - intros l. unfold Leaflet.render, Leaflet.ortsteileOnly. simpl.
    destruct (Leaflet.showOrtsteile s), (Leaflet.ortsteile s); simpl;
      by intros [= <-].
  - intros f. rewrite Hlist.
    destruct (Unicode.is_blank (Leaflet.query s));
      rewrite ?list_elem_of_filter, Hbase; tauto.
  - intros Hblank. rewrite Hlist, Hblank.
    unfold Leaflet.gemeindenOnly, Leaflet.ortsteileOnly, Leaflet.of_kind.
    by destruct (Leaflet.showGemeinden s), (Leaflet.gemeinden s),
         (Leaflet.ortsteile s).
  - intros _ f. rewrite Hlist.
    destruct (Unicode.is_blank (Leaflet.query s)) eqn:Hblank;
      rewrite ?list_elem_of_filter, Hbase.
    + tauto.
    + split; [tauto|]. intros (? & ? & ? & [?|?]); [done|tauto].
  - done.
  - by intros [].
  - intros b. by destruct s.
  - intros b. by destruct s.
  - unfold MapLibre.render, MapLibre.gemeindenFC. simpl.
    destruct (MapLibre.showGemeinden t), (MapLibre.gemeinden t); simpl;
      split; try done; intros H; try (by destruct H as [? []]);
      by inversion H.
  - unfold MapLibre.render, MapLibre.ortsteileFC. simpl.
    destruct (MapLibre.showOrtsteile t), (MapLibre.ortsteile t); simpl;
      split; try done; intros H; try (by destruct H as [? []]);
      by inversion H.
  - intros l. unfold MapLibre.render, MapLibre.gemeindenFC. simpl.
    destruct (MapLibre.showGemeinden t), (MapLibre.gemeinden t); simpl;
      by intros [= <-].
  - intros l. unfold MapLibre.render, MapLibre.ortsteileFC. simpl.
    destruct (MapLibre.showOrtsteile t), (MapLibre.ortsteile t); simpl;
      by intros [= <-].
  - intros Hq. unfold MapLibre.render, MapLibre.listItems. simpl. rewrite Hq.
    generalize (MapLibre.combined t). intros l.
    induction l as [|f l IH]; [done|].
    rewrite filter_cons_True; [by rewrite IH|].
    unfold MapLibre.matches, MapLibre.nameMatch. simpl.
    by destruct (Unicode.toLowerCase (name (properties f))).
  - apply maplibre_length_combined.
  - done.
  - done.
  - by intros [].
  - intros b. by destruct t.
  - intros b. by destruct t.
Qed.
End TogglesAmended.
